(** * dmap: a sharded map (github.com/althk/dmap)

    Shallow embedding of [dmap.go] (the revision that keeps a per-shard
    [count]) and the properties of its sequential behaviour.

    Conventions of the embedding:
    - a [Shard] is a record of its [items] (a finite map) and its [count];
      the [sync.RWMutex] only matters between goroutines and has no field
      here: an operation of the model is one whole critical section;
    - a [DMap] is the slice of shards, a list.  [New] allocates one fresh
      [Shard] per index, so no two indices alias the same shard;
    - a Go panic is the [Panic] result of the [result] monad;
    - Go's [int] is the 64-bit two's complement integer of the amd64
      build the repository benchmarks on; its wrap-around is [wrap_int];
    - [crypto/sha1] is implemented below (FIPS 180-4) and checked against
      the standard test vectors. *)

From Stdlib Require Import ZArith Strings.Byte Strings.String Strings.Ascii.
From stdpp Require Import gmap strings list fin_maps.

Local Open Scope Z_scope.

(** ** The runtime: panics *)

Inductive panic : Type :=
  | MakesliceLenOutOfRange   (* make([]T, n) with n < 0 *)
  | IntegerDivideByZero      (* x % 0 *)
  | IndexOutOfRange.         (* m[i] with i outside [0, len(m)) *)

Inductive result (A : Type) : Type :=
  | Ok (a : A)
  | Panic (p : panic).
Arguments Ok {A} a.
Arguments Panic {A} p.

(** [result] is a monad in stdpp's sense, which gives [x ← r; k]. *)
#[global] Instance result_ret : MRet result := fun A a => Ok a.
#[global] Instance result_bind : MBind result := fun A B k r =>
  match r with
  | Ok a => k a
  | Panic p => Panic p
  end.

(** ** Machine integers *)

(** Go's [int] on a 64-bit target. *)
Definition int_bits : Z := 64.
Definition max_int : Z := 2 ^ (int_bits - 1) - 1.
Definition min_int : Z := - 2 ^ (int_bits - 1).

Definition wrap_int (z : Z) : Z :=
  (z + 2 ^ (int_bits - 1)) mod 2 ^ int_bits - 2 ^ (int_bits - 1).

(** A [byte] ([uint8]) as its value in [0, 256). *)
Definition byte_val (b : byte) : Z := Z.of_N (Byte.to_N b).

Definition wrap_uint8 (z : Z) : Z := z mod 256.

(** ** crypto/sha1 *)

Module SHA1.

Definition w32 (x : Z) : Z := x mod 2 ^ 32.

Definition add32 (x y : Z) : Z := w32 (x + y).

Definition rotl (n x : Z) : Z :=
  w32 (Z.lor (Z.shiftl x n) (Z.shiftr x (32 - n))).

Definition not32 (x : Z) : Z := 2 ^ 32 - 1 - x.

(** The message followed by 0x80, zero bytes up to 56 modulo 64, and the
    bit length as a 64-bit big-endian integer. *)
Definition be_bytes (n : nat) (x : Z) : list Z :=
  map (fun i => (Z.shiftr x (8 * Z.of_nat i)) mod 256) (rev (seq 0 n)).

Definition pad (msg : list Z) : list Z :=
  let len := Z.of_nat (length msg) in
  let zeros := Z.to_nat ((55 - len) mod 64) in
  msg ++ 128 :: repeat 0 zeros ++ be_bytes 8 (8 * len).

Fixpoint be_words (bs : list Z) : list Z :=
  match bs with
  | a :: b :: c :: d :: rest =>
      (Z.shiftl a 24 + Z.shiftl b 16 + Z.shiftl c 8 + d) :: be_words rest
  | _ => []
  end.

Fixpoint chunks (fuel : nat) (ws : list Z) : list (list Z) :=
  match fuel with
  | O => []
  | S fuel' =>
      match ws with
      | [] => []
      | _ => take 16 ws :: chunks fuel' (drop 16 ws)
      end
  end.

Definition f_round (t : nat) (b c d : Z) : Z :=
  if (t <? 20)%nat then Z.lor (Z.land b c) (Z.land (not32 b) d)
  else if (t <? 40)%nat then Z.lxor (Z.lxor b c) d
  else if (t <? 60)%nat then
    Z.lor (Z.lor (Z.land b c) (Z.land b d)) (Z.land c d)
  else Z.lxor (Z.lxor b c) d.

Definition k_round (t : nat) : Z :=
  if (t <? 20)%nat then 0x5A827999
  else if (t <? 40)%nat then 0x6ED9EBA1
  else if (t <? 60)%nat then 0x8F1BBCDC
  else 0xCA62C1D6.

Record state : Type := State { ha : Z; hb : Z; hc : Z; hd : Z; he : Z }.

Definition init : state :=
  State 0x67452301 0xEFCDAB89 0x98BADCFE 0x10325476 0xC3D2E1F0.

(** One round; [win] is the window of the last sixteen schedule words,
    oldest first, whose head is the word of round [t]. *)
Definition round (t : nat) (sw : state * list Z) : state * list Z :=
  let '(s, win) := sw in
  let w := nth 0 win 0 in
  let tmp :=
    add32 (add32 (add32 (add32 (rotl 5 (ha s)) (f_round t (hb s) (hc s) (hd s)))
                        (he s)) w) (k_round t) in
  let next :=
    rotl 1 (Z.lxor (Z.lxor (Z.lxor (nth 13 win 0) (nth 8 win 0))
                           (nth 2 win 0)) (nth 0 win 0)) in
  (State tmp (ha s) (rotl 30 (hb s)) (hc s) (hd s), drop 1 win ++ [next]).

Definition block (s : state) (ws : list Z) : state :=
  let '(s', _) := foldl (fun sw t => round t sw) (s, ws) (seq 0 80) in
  State (add32 (ha s) (ha s')) (add32 (hb s) (hb s')) (add32 (hc s) (hc s'))
        (add32 (hd s) (hd s')) (add32 (he s) (he s')).

Definition byte_of_Z (z : Z) : byte :=
  default x00 (Byte.of_N (Z.to_N (z mod 256))).

(** [sha1.Sum]: the 20-byte digest. *)
Definition Sum (data : list byte) : list byte :=
  let ws := be_words (pad (map byte_val data)) in
  let s := foldl block init (chunks (length ws) ws) in
  map byte_of_Z
    (be_bytes 4 (ha s) ++ be_bytes 4 (hb s) ++ be_bytes 4 (hc s)
     ++ be_bytes 4 (hd s) ++ be_bytes 4 (he s)).

Definition hex (bs : list byte) : list Z := map byte_val bs.

End SHA1.

(** ** fmt and zero values *)

(** [fmt.Sprintf("%v", key)] converted to [[]byte]: the bytes of the key's
    default format. *)
Class Formatter (K : Type) := format_v : K → list byte.

(** [%v] prints a string as it is. *)
#[global] Instance string_formatter : Formatter string := list_byte_of_string.

(** The zero value of a type, which a failed map read returns. *)
Class ZeroValue (V : Type) := zero_value : V.

#[global] Instance string_zero : ZeroValue string := EmptyString.
#[global] Instance Z_zero : ZeroValue Z := 0.

(** ** The data model *)

(** [Shard]: one partition.  [K comparable] is a countable type with
    decidable equality. *)
Record Shard (K : Type) `{Countable K} (V : Type) : Type := mkShard {
  items : gmap K V;
  count : Z
}.
Arguments mkShard {K _ _ V} items count.
Arguments items {K _ _ V} s.
Arguments count {K _ _ V} s.

(** [DMap]: the slice of (pointers to) shards. *)
Abbreviation DMap K V := (list (Shard K V)).

(** The calls that mutate a map, for stating properties of call sequences. *)
Inductive op (K V : Type) : Type :=
  | OpSet (key : K) (val : V)
  | OpRemove (key : K).
Arguments OpSet {K V} key val.
Arguments OpRemove {K V} key.

Section operations.
Context {K : Type} `{Countable K} `{!Formatter K} {V : Type} `{!ZeroValue V}.

(** [New]: [make] panics on a negative length; the loop then stores a fresh
    shard with an empty [items] and a zero [count] at every index. *)
Definition New (nShards : Z) : result (DMap K V) :=
  if nShards <? 0 then Panic MakesliceLenOutOfRange
  else Ok (replicate (Z.to_nat nShards) (mkShard ∅ 0)).

(** [hash := int(checksum[7]<<1 | checksum[19])]: both operands are
    [byte]s, so the shift is truncated to eight bits before the [|], and
    the conversion to [int] is of a value below 256. *)
Definition key_hash (key : K) : Z :=
  let checksum := SHA1.Sum (format_v key) in
  Z.lor (wrap_uint8 (Z.shiftl (byte_val (nth 7 checksum x00)) 1))
        (byte_val (nth 19 checksum x00)).

(** [hash % len(m)]: Go's [%] truncates towards zero ([Z.rem]) and panics
    on a zero divisor. *)
Definition getShardIndex (m : DMap K V) (key : K) : result Z :=
  let hash := key_hash key in
  let n := Z.of_nat (length m) in
  if n =? 0 then Panic IntegerDivideByZero else Ok (Z.rem hash n).

(** [m[i]], bounds-checked. *)
Definition index (m : DMap K V) (i : Z) : result (Shard K V) :=
  if i <? 0 then Panic IndexOutOfRange
  else match m !! Z.to_nat i with
       | Some shard => Ok shard
       | None => Panic IndexOutOfRange
       end.

Definition getShard (m : DMap K V) (key : K) : result (Shard K V) :=
  i ← getShardIndex m key;
  index m i.

(** What a writer does through the pointer [getShard] returned: the shard
    at the key's index is replaced by its updated value. *)
Definition update_shard (m : DMap K V) (key : K)
    (f : Shard K V → Shard K V) : result (DMap K V) :=
  i ← getShardIndex m key;
  shard ← index m i;
  Ok (<[Z.to_nat i := f shard]> m).

Definition Get (m : DMap K V) (key : K) : result (V * bool) :=
  shard ← getShard m key;
  match items shard !! key with
  | Some v => Ok (v, true)
  | None => Ok (zero_value, false)
  end.

(** [shard.items[key] = val; shard.count += 1]. *)
Definition Set_ (m : DMap K V) (key : K) (val : V) : result (DMap K V) :=
  update_shard m key (fun shard =>
    mkShard (<[key := val]> (items shard)) (wrap_int (count shard + 1))).

(** [delete(shard.items, key)]; [count] is left as it is. *)
Definition Remove (m : DMap K V) (key : K) : result (DMap K V) :=
  update_shard m key (fun shard =>
    mkShard (delete key (items shard)) (count shard)).

(** [Count]: the loop adds every shard's [count] to an [int]; the final
    conversion to [int64] keeps the value of a 64-bit [int]. *)
Definition Count (m : DMap K V) : Z :=
  foldl (fun total shard => wrap_int (total + count shard)) 0 m.

Definition Has (m : DMap K V) (key : K) : result bool :=
  '(_, ok) ← Get m key;
  Ok ok.

(** [Keys].  Each goroutine appends all the keys of its shard while it
    holds [mu], so a shard's keys are contiguous in the result; the order
    of the goroutines and the iteration order of a Go map are not fixed.
    [shard_keys] is one iteration order, [Keys] the schedule that follows
    the slice ([mjoin] concatenates), and [Keys_result] all the results a
    call can return. *)
Definition shard_keys (shard : Shard K V) : list K :=
  (map_to_list (items shard)).*1.

Definition Keys (m : DMap K V) : list K :=
  mjoin (shard_keys <$> m).

Definition Keys_result (m : DMap K V) (keys : list K) : Prop :=
  ∃ parts order : list (list K),
    Forall2 (fun shard part => part ≡ₚ shard_keys shard) m parts ∧
    order ≡ₚ parts ∧
    keys = mjoin order.

(** ** Sequences of calls *)

Definition step (m : DMap K V) (o : op K V) : result (DMap K V) :=
  match o with
  | OpSet key val => Set_ m key val
  | OpRemove key => Remove m key
  end.

Fixpoint run (ops : list (op K V)) (m : DMap K V) : result (DMap K V) :=
  match ops with
  | [] => Ok m
  | o :: rest => m' ← step m o; run rest m'
  end.

(** A fresh map of [nShards] shards, then the calls of [ops] in order. *)
Definition run_fresh (nShards : Z) (ops : list (op K V)) : result (DMap K V) :=
  m ← New nShards;
  run ops m.

(** The keys set and not removed since, in the order of the calls. *)
Definition live_step (L : gset K) (o : op K V) : gset K :=
  match o with
  | OpSet key _ => {[key]} ∪ L
  | OpRemove key => L ∖ {[key]}
  end.

Definition live (ops : list (op K V)) : gset K :=
  foldl live_step ∅ ops.

(** The number of [Set] calls. *)
Definition is_set (o : op K V) : bool :=
  match o with OpSet _ _ => true | OpRemove _ => false end.

Definition num_sets (ops : list (op K V)) : nat :=
  length (List.filter is_set ops).

(** The index a key is routed to among [n] shards. *)
Definition route (n : nat) (key : K) : nat :=
  Z.to_nat (Z.rem (key_hash key) (Z.of_nat n)).

(** What the properties observe of a shard and of a map: the number of
    items and the [count] of each shard. *)
Definition shard_summary (shard : Shard K V) : nat * Z :=
  (size (items shard), count shard).

Definition summary (m : DMap K V) : list (nat * Z) :=
  shard_summary <$> m.

(** The key of a call. *)
Definition op_key (o : op K V) : K :=
  match o with OpSet key _ => key | OpRemove key => key end.

(** ** Invariants of the reachable states *)

(** [routed n L m]: [m] has [n] shards and a key is stored in the shard at
    index [i] exactly when it is in [L] and routed to [i]. *)
Definition routed (n : nat) (L : gset K) (m : DMap K V) : Prop :=
  length m = n ∧
  ∀ (i : nat) shard key,
    m !! i = Some shard →
    is_Some (items shard !! key) ↔ key ∈ L ∧ route n key = i.

(** The sum of the [count] fields, as an integer without wrap-around. *)
Definition sum_counts (m : DMap K V) : Z :=
  foldr (fun shard total => count shard + total) 0 m.

(** [counted c m]: the [count] fields add up to [c], as [int]s do. *)
Definition counted (c : Z) (m : DMap K V) : Prop :=
  wrap_int (sum_counts m) = wrap_int c.

End operations.

(** The digest is never unfolded by simplification. *)
Arguments SHA1.Sum : simpl never.
Arguments key_hash : simpl never.
Arguments route : simpl never.

(** ** A plain map as reference *)

Section reference.
Context {K : Type} `{Countable K} `{!Formatter K} {V : Type} `{!ZeroValue V}.

(** What [v, ok := items[key]] yields for a lookup. *)
Definition lookup_result (r : option V) : V * bool :=
  match r with
  | Some v => (v, true)
  | None => (zero_value, false)
  end.

(** The calls on one unsharded Go map: [c[key] = val] and
    [delete(c, key)]. *)
Definition contents_step (c : gmap K V) (o : op K V) : gmap K V :=
  match o with
  | OpSet key val => <[key := val]> c
  | OpRemove key => delete key c
  end.

Definition contents (ops : list (op K V)) : gmap K V :=
  foldl contents_step ∅ ops.

(** [stores n c m]: [m] has [n] shards, and the shard at index [i] holds of
    [c] the keys routed to [i] and nothing else. *)
Definition stores (n : nat) (c : gmap K V) (m : DMap K V) : Prop :=
  length m = n ∧
  ∀ (i : nat) shard key,
    m !! i = Some shard →
    items shard !! key = if decide (route n key = i) then c !! key else None.

(** What a call does to the shard of its key. *)
Definition op_shard (o : op K V) (shard : Shard K V) : Shard K V :=
  match o with
  | OpSet key val =>
      mkShard (<[key := val]> (items shard)) (wrap_int (count shard + 1))
  | OpRemove key =>
      mkShard (delete key (items shard)) (count shard)
  end.

(** One [Set] per key with the same value, as the loop of the tests'
    [prepareTestData] makes them. *)
Definition set_all (keys : list K) (testval : V) : list (op K V) :=
  (fun key => OpSet key testval) <$> keys.

(** The number of items stored in all the shards. *)
Definition total_items (m : DMap K V) : nat :=
  foldr (fun shard total => (size (items shard) + total)%nat) 0%nat m.

End reference.

(** ** dmap.go: the revision without [count] *)

(** [dmap.go] differs from the code above in two places: its [Shard] has
    no [count] (so [Set] only stores and there is no [Count] and no
    [Has]), and the goroutines of its [Keys] take [mu] for one [append]
    at a time, so the keys of different shards interleave in the
    result. *)
Module Uncounted.

Record Shard (K : Type) `{Countable K} (V : Type) : Type := mkShard {
  items : gmap K V
}.
Arguments mkShard {K _ _ V} items.
Arguments items {K _ _ V} s.

Abbreviation DMap K V := (list (Shard K V)).

Section operations.
Context {K : Type} `{Countable K} `{!Formatter K} {V : Type} `{!ZeroValue V}.

Definition New (nShards : Z) : result (DMap K V) :=
  if nShards <? 0 then Panic MakesliceLenOutOfRange
  else Ok (replicate (Z.to_nat nShards) (mkShard ∅)).

Definition getShardIndex (m : DMap K V) (key : K) : result Z :=
  let hash := key_hash key in
  let n := Z.of_nat (length m) in
  if n =? 0 then Panic IntegerDivideByZero else Ok (Z.rem hash n).

Definition index (m : DMap K V) (i : Z) : result (Shard K V) :=
  if i <? 0 then Panic IndexOutOfRange
  else match m !! Z.to_nat i with
       | Some shard => Ok shard
       | None => Panic IndexOutOfRange
       end.

Definition getShard (m : DMap K V) (key : K) : result (Shard K V) :=
  i ← getShardIndex m key;
  index m i.

Definition update_shard (m : DMap K V) (key : K)
    (f : Shard K V → Shard K V) : result (DMap K V) :=
  i ← getShardIndex m key;
  shard ← index m i;
  Ok (<[Z.to_nat i := f shard]> m).

Definition Get (m : DMap K V) (key : K) : result (V * bool) :=
  shard ← getShard m key;
  match items shard !! key with
  | Some v => Ok (v, true)
  | None => Ok (zero_value, false)
  end.

Definition Set_ (m : DMap K V) (key : K) (val : V) : result (DMap K V) :=
  update_shard m key (fun shard => mkShard (<[key := val]> (items shard))).

Definition Remove (m : DMap K V) (key : K) : result (DMap K V) :=
  update_shard m key (fun shard => mkShard (delete key (items shard))).

Definition shard_keys (shard : Shard K V) : list K :=
  (map_to_list (items shard)).*1.

(** [interleaving parts keys]: [keys] is made by taking, again and again,
    the next key of one of the lists of [parts], until all are used up:
    the order in which the goroutines get [mu] for their next [append]. *)
Inductive interleaving : list (list K) → list K → Prop :=
  | interleaving_done parts :
      Forall (fun part => part = []) parts → interleaving parts []
  | interleaving_next parts (i : nat) key rest keys :
      parts !! i = Some (key :: rest) →
      interleaving (<[i := rest]> parts) keys →
      interleaving parts (key :: keys).

(** The schedule in which every goroutine finishes before the next one
    starts, and all the results a call can return. *)
Definition Keys (m : DMap K V) : list K :=
  mjoin (shard_keys <$> m).

Definition Keys_result (m : DMap K V) (keys : list K) : Prop :=
  ∃ parts : list (list K),
    Forall2 (fun shard part => part ≡ₚ shard_keys shard) m parts ∧
    interleaving parts keys.

Definition step (m : DMap K V) (o : op K V) : result (DMap K V) :=
  match o with
  | OpSet key val => Set_ m key val
  | OpRemove key => Remove m key
  end.

Fixpoint run (ops : list (op K V)) (m : DMap K V) : result (DMap K V) :=
  match ops with
  | [] => Ok m
  | o :: rest => m' ← step m o; run rest m'
  end.

Definition run_fresh (nShards : Z) (ops : list (op K V)) : result (DMap K V) :=
  m ← New nShards;
  run ops m.

End operations.
End Uncounted.

(** A shard of the code with [count], seen as one of [dmap.go]. *)
Definition forget_count {K : Type} `{Countable K} {V : Type}
    (shard : Shard K V) : Uncounted.Shard K V :=
  Uncounted.mkShard (items shard).

(** ** Concrete maps and calls for the examples *)

(** One empty shard; that shard after [Set("a", "x")]; the calls of the
    specification's example scenario. *)
Definition one_shard : DMap string string := [mkShard ∅ 0].

Definition one_shard_a : DMap string string :=
  [mkShard (<["a" := "x"]> ∅) 1].

Definition scenario : list (op string Z) :=
  [OpSet "a" 1; OpSet "b" 2; OpRemove "a"].

(** * Properties *)

(** ** The monad *)

Lemma bind_Ok {A B : Type} (a : A) (k : A → result B) : Ok a ≫= k = k a.
Proof. reflexivity. Qed.

Lemma Ok_inj {A : Type} (a b : A) : Ok a = Ok b → a = b.
Proof. congruence. Qed.

Lemma bind_Panic {A B : Type} (p : panic) (k : A → result B) :
  Panic p ≫= k = Panic p.
Proof. reflexivity. Qed.

(** ** The digest and the hash *)

Lemma Sum_length (data : list byte) : length (SHA1.Sum data) = 20%nat.
Proof. unfold SHA1.Sum. by rewrite length_map, !length_app. Qed.

Lemma byte_val_range (b : byte) : 0 ≤ byte_val b < 256.
Proof. unfold byte_val. pose proof (Byte.to_N_bounded b). lia. Qed.

Lemma lor_uint8 (a b : Z) :
  0 ≤ a < 256 → 0 ≤ b < 256 → 0 ≤ Z.lor a b < 256.
Proof.
  intros Ha Hb.
  assert (0 ≤ Z.lor a b) as Hnn by (apply Z.lor_nonneg; lia).
  split; [done|].
  change 256 with (2 ^ 8).
  apply Z.bounded_iff_bits_nonneg; [lia | done |].
  intros l Hl. rewrite Z.lor_spec.
  rewrite (proj1 (Z.bounded_iff_bits_nonneg 8 a ltac:(lia) ltac:(lia))) by (simpl; lia).
  rewrite (proj1 (Z.bounded_iff_bits_nonneg 8 b ltac:(lia) ltac:(lia))) by (simpl; lia).
  done.
Qed.

Section properties.
Context {K : Type} `{Countable K} `{!Formatter K} {V : Type} `{!ZeroValue V}.
Implicit Types (m : DMap K V) (key : K) (val : V) (shard : Shard K V).
Implicit Types (ops : list (op K V)) (o : op K V).

Lemma key_hash_range key : 0 ≤ key_hash key ≤ 255.
Proof.
  unfold key_hash, wrap_uint8.
  pose proof (byte_val_range (nth 19 (SHA1.Sum (format_v key)) x00)).
  pose proof (Z.mod_pos_bound
    (Z.shiftl (byte_val (nth 7 (SHA1.Sum (format_v key)) x00)) 1) 256 ltac:(lia)).
  pose proof (lor_uint8 _ _ H1 H0). lia.
Qed.

(** ** Routing *)

Lemma route_lt (n : nat) key : (1 ≤ n)%nat → (route n key < n)%nat.
Proof.
  intros Hn. unfold route.
  pose proof (key_hash_range key).
  pose proof (Z.rem_bound_pos (key_hash key) (Z.of_nat n)).
  lia.
Qed.

Lemma getShardIndex_route m key :
  (1 ≤ length m)%nat →
  getShardIndex m key = Ok (Z.of_nat (route (length m) key)).
Proof.
  intros Hn. unfold getShardIndex, route.
  destruct (Z.eqb_spec (Z.of_nat (length m)) 0) as [|_]; [lia|].
  f_equal.
  pose proof (key_hash_range key).
  pose proof (Z.rem_bound_pos (key_hash key) (Z.of_nat (length m))).
  lia.
Qed.

Lemma getShardIndex_empty key :
  getShardIndex (K:=K) (V:=V) [] key = Panic IntegerDivideByZero.
Proof. done. Qed.

Lemma index_of_nat m (i : nat) shard :
  m !! i = Some shard → index m (Z.of_nat i) = Ok shard.
Proof.
  intros Hi. unfold index.
  destruct (Z.ltb_spec (Z.of_nat i) 0); [lia|].
  by rewrite Nat2Z.id, Hi.
Qed.

Lemma getShard_route m key :
  (1 ≤ length m)%nat →
  ∃ shard, m !! route (length m) key = Some shard ∧ getShard m key = Ok shard.
Proof.
  intros Hn.
  destruct (lookup_lt_is_Some_2 m (route (length m) key)) as [shard Hs].
  { by apply route_lt. }
  exists shard. split; [done|].
  unfold getShard. rewrite getShardIndex_route, bind_Ok by done.
  by apply index_of_nat.
Qed.

Lemma update_shard_route m key (f : Shard K V → Shard K V) shard :
  m !! route (length m) key = Some shard →
  update_shard m key f = Ok (<[route (length m) key := f shard]> m).
Proof.
  intros Hs.
  assert (1 ≤ length m)%nat as Hn.
  { apply lookup_lt_Some in Hs. lia. }
  unfold update_shard. rewrite getShardIndex_route, bind_Ok by done.
  by rewrite (index_of_nat _ _ _ Hs), bind_Ok, Nat2Z.id.
Qed.

(** ** Writers *)

Lemma Set_route m key val shard :
  m !! route (length m) key = Some shard →
  Set_ m key val =
  Ok (<[route (length m) key :=
          mkShard (<[key := val]> (items shard)) (wrap_int (count shard + 1))]> m).
Proof. intros Hs. unfold Set_. by rewrite (update_shard_route _ _ _ _ Hs). Qed.

Lemma Remove_route m key shard :
  m !! route (length m) key = Some shard →
  Remove m key =
  Ok (<[route (length m) key :=
          mkShard (delete key (items shard)) (count shard)]> m).
Proof. intros Hs. unfold Remove. by rewrite (update_shard_route _ _ _ _ Hs). Qed.

(** A call replaces the shard its key is routed to and nothing else. *)
Lemma step_route m o :
  (1 ≤ length m)%nat →
  ∃ shard shard',
    m !! route (length m) (op_key o) = Some shard ∧
    step m o = Ok (<[route (length m) (op_key o) := shard']> m) ∧
    shard' = match o with
             | OpSet key val =>
                 mkShard (<[key := val]> (items shard)) (wrap_int (count shard + 1))
             | OpRemove key =>
                 mkShard (delete key (items shard)) (count shard)
             end.
Proof.
  intros Hn.
  destruct (getShard_route m (op_key o) Hn) as (shard & Hs & _).
  exists shard. eexists. split; [done|]. split; [|done].
  destruct o as [key val|key].
  - by apply Set_route.
  - by apply Remove_route.
Qed.

Lemma step_length m o m' : step m o = Ok m' → length m' = length m.
Proof.
  destruct m as [|s0 m0].
  - destruct o; discriminate.
  - intros Hst.
    destruct (step_route (s0 :: m0) o) as (shard & shard' & _ & Heq & _).
    { simpl. lia. }
    rewrite Heq in Hst. apply Ok_inj in Hst as <-. apply length_insert.
Qed.

Lemma run_length ops m m' : run ops m = Ok m' → length m' = length m.
Proof.
  revert m. induction ops as [|o ops IH]; intros m; simpl.
  - by intros [= ->].
  - destruct (step m o) as [m1|p] eqn:Hst; simpl; [|done].
    intros Hrun. rewrite (IH _ Hrun). by eapply step_length.
Qed.

(** With at least one shard no call panics. *)
Lemma run_total ops m : (1 ≤ length m)%nat → ∃ m', run ops m = Ok m'.
Proof.
  revert m. induction ops as [|o ops IH]; intros m Hn; simpl.
  - by eexists.
  - destruct (step_route m o Hn) as (shard & shard' & _ & Heq & _).
    rewrite Heq, bind_Ok. apply IH. by rewrite length_insert.
Qed.

Lemma New_length (nShards : Z) :
  0 ≤ nShards →
  ∃ m : DMap K V, New nShards = Ok m ∧ length m = Z.to_nat nShards ∧
    ∀ i : nat, (i < Z.to_nat nShards)%nat → m !! i = Some (mkShard ∅ 0).
Proof.
  intros Hn. unfold New.
  destruct (Z.ltb_spec nShards 0); [lia|].
  eexists. split; [done|]. split; [by rewrite length_replicate|].
  intros i Hi. by apply lookup_replicate_2.
Qed.

(** ** Readers *)

Lemma Get_route m key shard :
  m !! route (length m) key = Some shard →
  Get m key = match items shard !! key with
              | Some v => Ok (v, true)
              | None => Ok (zero_value, false)
              end.
Proof.
  intros Hs.
  assert (1 ≤ length m)%nat as Hn by (apply lookup_lt_Some in Hs; lia).
  destruct (getShard_route m key Hn) as (shard' & Hs' & Hget).
  unfold Get. rewrite Hget, bind_Ok.
  rewrite Hs in Hs'. by injection Hs' as <-.
Qed.

(** C6: with at least one shard, the routing function returns an index
    in [0, N) for every key, so the lookup [m[i]] of [getShard] finds a
    shard and never takes the out-of-range panic. *)
Theorem getShardIndex_in_range m key :
  (1 ≤ length m)%nat →
  ∃ (i : Z) shard,
    getShardIndex m key = Ok i ∧
    0 ≤ i < Z.of_nat (length m) ∧
    m !! Z.to_nat i = Some shard ∧
    index m i = Ok shard ∧
    getShard m key = Ok shard.
Proof.
  intros Hn.
  destruct (getShard_route m key Hn) as (shard & Hs & Hget).
  exists (Z.of_nat (route (length m) key)), shard.
  pose proof (route_lt (length m) key Hn).
  split; [by apply getShardIndex_route|].
  split; [lia|].
  split; [by rewrite Nat2Z.id|].
  split; [by apply index_of_nat | done].
Qed.

(** C7: on a map with at least one shard, [Set(K, V)] followed by [Get(K)]
    returns [(V, true)]. *)
Theorem Set_then_Get m key val :
  (1 ≤ length m)%nat →
  ∃ m', Set_ m key val = Ok m' ∧ Get m' key = Ok (val, true).
Proof.
  intros Hn.
  destruct (getShard_route m key Hn) as (shard & Hs & _).
  eexists. split; [by apply Set_route|].
  pose proof (route_lt (length m) key Hn) as Hlt.
  erewrite Get_route.
  2:{ rewrite length_insert. by apply list_lookup_insert_eq. }
  simpl. by rewrite lookup_insert_eq.
Qed.

(** ** Shards a call does not touch *)

Lemma step_other m o m' (i : nat) :
  step m o = Ok m' → i ≠ route (length m) (op_key o) → m' !! i = m !! i.
Proof.
  intros Hst Hne.
  destruct m as [|s0 m0]; [by destruct o|].
  destruct (step_route (s0 :: m0) o) as (shard & shard' & _ & Heq & _).
  { simpl. lia. }
  rewrite Heq in Hst. apply Ok_inj in Hst as <-.
  by apply list_lookup_insert_ne.
Qed.

Lemma run_other ops m m' (i : nat) :
  (∀ key, route (length m) key ≠ i) →
  run ops m = Ok m' → m' !! i = m !! i.
Proof.
  revert m. induction ops as [|o ops IH]; intros m Hi; simpl.
  - by intros ->%Ok_inj.
  - destruct (step m o) as [m1|p] eqn:Hst; [|done].
    rewrite bind_Ok. intros Hrun.
    rewrite (IH m1); [by eapply step_other|..|done].
    by rewrite (step_length _ _ _ Hst).
Qed.

Lemma route_le_hash (n : nat) key :
  (1 ≤ n)%nat → Z.of_nat (route n key) ≤ key_hash key.
Proof.
  intros Hn. unfold route.
  pose proof (key_hash_range key).
  pose proof (Z.rem_bound_pos (key_hash key) (Z.of_nat n)).
  pose proof (Z.rem_le (key_hash key) (Z.of_nat n)).
  lia.
Qed.

Lemma route_small (n : nat) key :
  key_hash key < Z.of_nat n → Z.of_nat (route n key) = key_hash key.
Proof.
  intros Hn. unfold route.
  pose proof (key_hash_range key).
  rewrite Z.rem_small by lia. lia.
Qed.

(** C10: the hash of every key lies in [0, 255]; so on a map of more than
    256 shards, after any calls, every key is routed to an index in 0..255
    (its hash), and the shards at index 256 and above are still as [New]
    made them: no items and a zero count. *)
Theorem high_shards_stay_empty (nShards : Z) ops key :
  256 < nShards →
  0 ≤ key_hash key ≤ 255 ∧
  ∃ m, run_fresh nShards ops = Ok m ∧
    length m = Z.to_nat nShards ∧
    getShardIndex m key = Ok (key_hash key) ∧
    ∀ (i : nat) shard,
      (256 ≤ i)%nat → m !! i = Some shard →
      items shard = ∅ ∧ count shard = 0.
Proof.
  intros Hn. pose proof (key_hash_range key) as Hh. split; [done|].
  destruct (New_length nShards) as (m0 & Hnew & Hlen0 & Hfresh); [lia|].
  destruct (run_total ops m0) as [m Hrun]; [lia|].
  pose proof (run_length _ _ _ Hrun) as Hlen.
  exists m. unfold run_fresh. rewrite Hnew, bind_Ok.
  split; [done|]. split; [lia|]. split.
  - rewrite getShardIndex_route by lia. f_equal. apply route_small. lia.
  - intros i shard Hi Hs.
    rewrite (run_other ops m0 m i) in Hs; [|intros key'|done].
    + rewrite Hfresh in Hs; [by injection Hs as <-|].
      apply lookup_lt_Some in Hs. lia.
    + pose proof (key_hash_range key').
      pose proof (route_le_hash (length m0) key'). lia.
Qed.

(** ** Counting *)

Lemma wrap_int_range (z : Z) : min_int ≤ wrap_int z ≤ max_int.
Proof.
  unfold min_int, max_int, wrap_int, int_bits.
  pose proof (Z.mod_pos_bound (z + 2 ^ (64 - 1)) (2 ^ 64)). lia.
Qed.

Lemma wrap_int_id (z : Z) : min_int ≤ z ≤ max_int → wrap_int z = z.
Proof.
  unfold min_int, max_int, wrap_int, int_bits. intros Hz.
  rewrite Z.mod_small; lia.
Qed.

Lemma wrap_int_add_l (a b : Z) : wrap_int (wrap_int a + b) = wrap_int (a + b).
Proof.
  unfold wrap_int, int_bits. f_equal.
  replace ((a + 2 ^ (64 - 1)) mod 2 ^ 64 - 2 ^ (64 - 1) + b + 2 ^ (64 - 1))
    with ((a + 2 ^ (64 - 1)) mod 2 ^ 64 + b) by lia.
  rewrite Zplus_mod_idemp_l. f_equal. lia.
Qed.

Lemma wrap_int_add_r (a b : Z) : wrap_int (a + wrap_int b) = wrap_int (a + b).
Proof. by rewrite Z.add_comm, wrap_int_add_l, Z.add_comm. Qed.

Lemma wrap_int_add_congr (a a' b : Z) :
  wrap_int a = wrap_int a' → wrap_int (a + b) = wrap_int (a' + b).
Proof.
  intros Heq. by rewrite <- (wrap_int_add_l a), Heq, wrap_int_add_l.
Qed.

Lemma num_sets_cons o ops :
  num_sets (o :: ops) = ((if is_set o then 1 else 0) + num_sets ops)%nat.
Proof.
  unfold num_sets. simpl. by destruct (is_set o).
Qed.

Lemma sum_counts_insert m (i : nat) shard shard' :
  m !! i = Some shard →
  sum_counts (<[i := shard']> m) = sum_counts m - count shard + count shard'.
Proof.
  revert i. induction m as [|s m IH]; intros [|i] Hs; simplify_eq/=.
  - lia.
  - rewrite (IH i) by done. lia.
Qed.

(** A [Set] adds one to the sum of the counts, a [Remove] nothing. *)
Lemma counted_step c m o :
  counted c m → (1 ≤ length m)%nat →
  ∃ m', step m o = Ok m' ∧ counted (c + (if is_set o then 1 else 0)) m'.
Proof.
  unfold counted. intros Hsum Hn.
  destruct (step_route m o Hn) as (shard & shard' & Hs & Heq & Hs').
  exists (<[route (length m) (op_key o) := shard']> m). split; [done|].
  rewrite (sum_counts_insert _ _ _ _ Hs). subst shard'.
  destruct o as [key val|key]; simpl.
  - rewrite wrap_int_add_r.
    replace (sum_counts m - count shard + (count shard + 1))
      with (sum_counts m + 1) by lia.
    by apply wrap_int_add_congr.
  - replace (sum_counts m - count shard + count shard)
      with (sum_counts m + 0) by lia.
    by apply wrap_int_add_congr.
Qed.

Lemma counted_run ops c m :
  counted c m → (1 ≤ length m)%nat →
  ∃ m', run ops m = Ok m' ∧ counted (c + Z.of_nat (num_sets ops)) m'.
Proof.
  revert c m. induction ops as [|o ops IH]; intros c m Hc Hn.
  - exists m. split; [done|]. unfold num_sets. simpl. by rewrite Z.add_0_r.
  - rewrite num_sets_cons.
    destruct (counted_step c m o Hc Hn) as (m1 & Hst & Hc1).
    destruct (IH _ m1 Hc1) as (m' & Hrun & Hc').
    { by rewrite (step_length _ _ _ Hst). }
    exists m'. simpl. rewrite Hst, bind_Ok. split; [done|].
    replace (c + Z.of_nat ((if is_set o then 1 else 0) + num_sets ops))
      with (c + (if is_set o then 1 else 0) + Z.of_nat (num_sets ops)); [done|].
    destruct (is_set o); lia.
Qed.

(** The loop of [Count] from a running [total]. *)
Lemma Count_from (total : Z) m :
  wrap_int (foldl (fun total shard => wrap_int (total + count shard)) total m)
  = wrap_int (total + sum_counts m).
Proof.
  revert total. induction m as [|s m IH]; intros total; simpl.
  - by rewrite Z.add_0_r.
  - rewrite IH, wrap_int_add_l. f_equal. lia.
Qed.

Lemma Count_from_range (total : Z) m :
  min_int ≤ total ≤ max_int →
  min_int ≤ foldl (fun total shard => wrap_int (total + count shard)) total m
          ≤ max_int.
Proof.
  revert total. induction m as [|s m IH]; intros total Ht; simpl; [done|].
  apply IH, wrap_int_range.
Qed.

Lemma Count_range m : min_int ≤ Count m ≤ max_int.
Proof. apply Count_from_range. unfold min_int, max_int, int_bits. lia. Qed.

Lemma Count_counted c m : counted c m → Count m = wrap_int c.
Proof.
  unfold counted. intros <-.
  rewrite <- (wrap_int_id (Count m)) by apply Count_range.
  unfold Count. by rewrite Count_from.
Qed.

Lemma counted_replicate (n : nat) :
  counted (K:=K) (V:=V) 0 (replicate n (mkShard ∅ 0)).
Proof.
  unfold counted. f_equal.
  induction n as [|n IH]; simpl; [done|]. by rewrite IH.
Qed.

(** Whatever the number of calls, [Count()] is the number of [Set] calls
    as an [int]. *)
Lemma Count_wraps_Set_calls (nShards : Z) ops :
  1 ≤ nShards →
  ∃ m, run_fresh nShards ops = Ok m ∧
       Count m = wrap_int (Z.of_nat (num_sets ops)).
Proof.
  intros Hn. unfold run_fresh, New.
  destruct (Z.ltb_spec nShards 0); [lia|]. rewrite bind_Ok.
  destruct (counted_run ops 0 (replicate (Z.to_nat nShards) (mkShard ∅ 0)))
    as (m & Hrun & Hc).
  - apply counted_replicate.
  - rewrite length_replicate. lia.
  - exists m. split; [done|]. by rewrite (Count_counted _ _ Hc).
Qed.

(** C9: from a fresh map with at least one shard, [Count()] is the number
    of [Set] calls made, whether or not they overwrote a key and whatever
    [Remove] calls came between them (as long as that number fits Go's
    [int], which [count] is). *)
Theorem Count_is_number_of_Set_calls (nShards : Z) ops :
  1 ≤ nShards →
  Z.of_nat (num_sets ops) ≤ max_int →
  ∃ m, run_fresh nShards ops = Ok m ∧ Count m = Z.of_nat (num_sets ops).
Proof.
  intros Hn Hmax.
  destruct (Count_wraps_Set_calls nShards ops Hn) as (m & Hrun & Hcount).
  exists m. split; [done|]. rewrite Hcount. apply wrap_int_id.
  unfold min_int, max_int, int_bits in *. lia.
Qed.

(** ** Where the keys are *)

(** From here on [route] is used through its lemmas only. *)
Opaque route.

Lemma routed_replicate (n : nat) :
  routed (K:=K) (V:=V) n ∅ (replicate n (mkShard ∅ 0)).
Proof.
  split; [by rewrite length_replicate|].
  intros i shard key [-> _]%lookup_replicate. simpl.
  rewrite lookup_empty. split; [by intros [? ?]|].
  intros [Hin _]. by apply not_elem_of_empty in Hin.
Qed.

Lemma elem_of_live_step (L : gset K) o key :
  key ∈ live_step L o ↔
  match o with
  | OpSet k _ => key = k ∨ key ∈ L
  | OpRemove k => key ∈ L ∧ key ≠ k
  end.
Proof.
  destruct o as [k v|k]; simpl.
  - by rewrite elem_of_union, elem_of_singleton.
  - by rewrite elem_of_difference, elem_of_singleton.
Qed.

Lemma routed_step (n : nat) (L : gset K) m o m' :
  routed n L m → (1 ≤ n)%nat → step m o = Ok m' →
  routed n (live_step L o) m'.
Proof.
  intros [Hlen Hinv] Hn Hst.
  destruct (step_route m o) as (shard & shard' & Hs & Heq & Hs'); [lia|].
  rewrite Heq in Hst. apply Ok_inj in Hst as <-.
  split; [by rewrite length_insert|].
  rewrite Hlen in *.
  intros i s key Hi. rewrite elem_of_live_step.
  destruct (decide (i = route n (op_key o))) as [->|Hne].
  - rewrite list_lookup_insert_eq in Hi by (by eapply lookup_lt_Some).
    injection Hi as <-. specialize (Hinv _ shard key Hs).
    destruct o as [k v|k]; subst shard'; simpl in *.
    + destruct (decide (key = k)) as [->|Hk].
      * rewrite lookup_insert_eq. split; [auto|by eexists].
      * rewrite lookup_insert_ne by done. rewrite Hinv. tauto.
    + destruct (decide (key = k)) as [->|Hk].
      * rewrite lookup_delete_eq. split; [by intros [? ?]|tauto].
      * rewrite lookup_delete_ne by done. rewrite Hinv. tauto.
  - rewrite list_lookup_insert_ne in Hi by done.
    specialize (Hinv i s key Hi). rewrite Hinv.
    destruct (decide (key = op_key o)) as [->|Hk].
    + split; intros [_ ?]; by subst i.
    + destruct o as [k v|k]; simpl in *; tauto.
Qed.

Lemma routed_run (n : nat) ops (L : gset K) m m' :
  routed n L m → (1 ≤ n)%nat → run ops m = Ok m' →
  routed n (foldl live_step L ops) m'.
Proof.
  revert L m. induction ops as [|o ops IH]; intros L m Hr Hn; simpl.
  - by intros ->%Ok_inj.
  - destruct (step m o) as [m1|p] eqn:Hst; [|done].
    rewrite bind_Ok. apply IH; [|done]. by eapply routed_step.
Qed.

(** A routed map stores a key in one shard at most. *)
Lemma routed_unique (n : nat) (L : gset K) m (i j : nat) si sj key :
  routed n L m →
  m !! i = Some si → m !! j = Some sj →
  is_Some (items si !! key) → is_Some (items sj !! key) → i = j.
Proof.
  intros [_ Hinv] Hi Hj Hki Hkj.
  apply (Hinv _ _ _ Hi) in Hki as [_ <-].
  by apply (Hinv _ _ _ Hj) in Hkj as [_ <-].
Qed.

Lemma elem_of_shard_keys shard key :
  key ∈ shard_keys shard ↔ is_Some (items shard !! key).
Proof.
  unfold shard_keys. rewrite list_elem_of_fmap. split.
  - intros ([k v] & -> & Hkv). apply elem_of_map_to_list in Hkv. by eexists.
  - intros [v Hv]. exists (key, v). split; [done|]. by apply elem_of_map_to_list.
Qed.

Lemma NoDup_shard_keys shard : NoDup (shard_keys shard).
Proof. apply NoDup_fst_map_to_list. Qed.

(** Lists whose elements are told apart by the position of their list
    concatenate without duplicates. *)
Lemma NoDup_join_by_position (owner : K → nat) (base : nat) (ls : list (list K)) :
  Forall NoDup ls →
  (∀ (i : nat) l key, ls !! i = Some l → key ∈ l → owner key = (base + i)%nat) →
  NoDup (mjoin ls).
Proof.
  intros Hall. revert base.
  induction Hall as [|l ls Hl Hall IH]; intros base Hown; simpl.
  - constructor.
  - apply NoDup_app. split; [done|]. split.
    + intros key Hkl [l' [Hkl' Hl']]%list_elem_of_join.
      apply list_elem_of_lookup in Hl' as [i Hi].
      pose proof (Hown 0%nat l key eq_refl Hkl).
      pose proof (Hown (S i) l' key Hi Hkl'). lia.
    + apply (IH (S base)). intros i l' key Hi Hk.
      rewrite (Hown (S i) l' key Hi Hk). lia.
Qed.

Lemma Keys_routed (n : nat) (L : gset K) m :
  routed n L m → (1 ≤ n)%nat → Keys m ≡ₚ elements L.
Proof.
  intros [Hlen Hinv] Hn. unfold Keys.
  apply NoDup_Permutation.
  - apply (NoDup_join_by_position (route n) 0).
    + apply Forall_fmap, Forall_forall. intros shard _. apply NoDup_shard_keys.
    + intros i l key Hi Hk.
      rewrite list_lookup_fmap in Hi.
      destruct (m !! i) as [shard|] eqn:Hs; [|done]. injection Hi as <-.
      apply elem_of_shard_keys in Hk.
      by destruct (proj1 (Hinv i shard key Hs) Hk) as [_ ->].
  - apply NoDup_elements.
  - intros key. rewrite elem_of_elements, list_elem_of_join. split.
    + intros (l & Hk & Hl).
      apply list_elem_of_fmap in Hl as (shard & -> & Hs).
      apply list_elem_of_lookup in Hs as [i Hs].
      apply elem_of_shard_keys in Hk.
      by destruct (proj1 (Hinv i shard key Hs) Hk) as [? _].
    + intros HL.
      destruct (lookup_lt_is_Some_2 m (route n key)) as [shard Hs].
      { rewrite Hlen. by apply route_lt. }
      exists (shard_keys shard). split.
      * apply elem_of_shard_keys. by apply (Hinv _ shard key Hs).
      * apply list_elem_of_fmap. exists shard. split; [done|].
        by eapply list_elem_of_lookup_2.
Qed.

(** Every result of [Keys] is a rearrangement of the one that follows the
    slice, which is one of the results. *)
Lemma Keys_result_Permutation m keys : Keys_result m keys → keys ≡ₚ Keys m.
Proof.
  intros (parts & order & Hparts & Horder & ->).
  rewrite Horder. unfold Keys. clear Horder order.
  induction Hparts as [|shard part m parts Hp _ IH]; simpl; [done|].
  by rewrite Hp, IH.
Qed.

Lemma Keys_result_Keys m : Keys_result m (Keys m).
Proof.
  exists (shard_keys <$> m), (shard_keys <$> m).
  split; [|done].
  induction m as [|shard m IH]; simpl; by constructor.
Qed.

(** C8: from a fresh map with at least one shard, after any [Set] and
    [Remove] calls, a key is stored in at most one shard, [Keys()] has a
    result, and every result it can return is a rearrangement of the live
    keys, each listed once. *)
Theorem Keys_are_the_live_keys (nShards : Z) ops :
  1 ≤ nShards →
  ∃ m, run_fresh nShards ops = Ok m ∧
    (∀ (i j : nat) si sj key,
       m !! i = Some si → m !! j = Some sj →
       is_Some (items si !! key) → is_Some (items sj !! key) → i = j) ∧
    Keys_result m (Keys m) ∧
    ∀ keys, Keys_result m keys →
      NoDup keys ∧ keys ≡ₚ elements (live ops).
Proof.
  intros Hn. unfold run_fresh, New.
  destruct (Z.ltb_spec nShards 0); [lia|]. rewrite bind_Ok.
  set (n := Z.to_nat nShards).
  destruct (run_total ops (replicate n (mkShard (K:=K) (V:=V) ∅ 0))) as [m Hrun].
  { rewrite length_replicate. lia. }
  assert (routed n (live ops) m) as Hr.
  { eapply routed_run; [apply routed_replicate|lia|done]. }
  exists m. split; [done|]. split; [|split].
  - intros i j si sj key. by apply (routed_unique n (live ops)).
  - apply Keys_result_Keys.
  - intros keys Hk.
    assert (keys ≡ₚ elements (live ops)) as Hp.
    { rewrite (Keys_result_Permutation _ _ Hk). apply (Keys_routed n); [done|lia]. }
    split; [|done]. rewrite Hp. apply NoDup_elements.
Qed.

(** ** The count of a shard and its items *)

(** What [Set] and [Remove] do to the shard of the key, and to no other
    (general form of the evaluations below). *)
Lemma Set_shard m key val shard :
  m !! route (length m) key = Some shard →
  ∃ m' shard',
    Set_ m key val = Ok m' ∧
    m' !! route (length m) key = Some shard' ∧
    items shard' = <[key := val]> (items shard) ∧
    count shard' = wrap_int (count shard + 1).
Proof.
  intros Hs. eexists _, _. split; [by apply Set_route|].
  split; [apply list_lookup_insert_eq; by eapply lookup_lt_Some|].
  split; reflexivity.
Qed.

Lemma Remove_shard m key shard :
  m !! route (length m) key = Some shard →
  ∃ m' shard',
    Remove m key = Ok m' ∧
    m' !! route (length m) key = Some shard' ∧
    items shard' = delete key (items shard) ∧
    count shard' = count shard.
Proof.
  intros Hs. eexists _, _. split; [by apply Remove_route|].
  split; [apply list_lookup_insert_eq; by eapply lookup_lt_Some|].
  split; reflexivity.
Qed.

(** ** Construction *)

Lemma point_operations_panic_without_shards key val :
  Get (K:=K) (V:=V) [] key = Panic IntegerDivideByZero ∧
  Set_ (K:=K) (V:=V) [] key val = Panic IntegerDivideByZero ∧
  Remove (K:=K) (V:=V) [] key = Panic IntegerDivideByZero ∧
  Has (K:=K) (V:=V) [] key = Panic IntegerDivideByZero.
Proof. done. Qed.

(** C5, as the code has it: a negative shard count makes [New] panic in
    [make]; [New(0)] returns a map without shards, on which [Keys] and
    [Count] return nothing and zero, and [Get], [Set], [Remove] and [Has]
    panic with a division by zero in the routing function. *)
Theorem New_non_positive (nShards : Z) key val :
  nShards ≤ 0 →
  (nShards < 0 ∧ New (K:=K) (V:=V) nShards = Panic MakesliceLenOutOfRange) ∨
  (nShards = 0 ∧
   New (K:=K) (V:=V) nShards = Ok [] ∧
   Keys (K:=K) (V:=V) [] = [] ∧
   Count (K:=K) (V:=V) [] = 0 ∧
   Get (K:=K) (V:=V) [] key = Panic IntegerDivideByZero ∧
   Set_ (K:=K) (V:=V) [] key val = Panic IntegerDivideByZero ∧
   Remove (K:=K) (V:=V) [] key = Panic IntegerDivideByZero ∧
   Has (K:=K) (V:=V) [] key = Panic IntegerDivideByZero).
Proof.
  intros Hn. destruct (decide (nShards = 0)) as [->|Hne].
  - right. repeat split.
  - left. split; [lia|]. unfold New.
    destruct (Z.ltb_spec nShards 0); [done|lia].
Qed.

End properties.

(** * The operations on concrete maps *)

(** ** The digest on the standard test vectors *)

Example sha1_abc :
  SHA1.hex (SHA1.Sum (list_byte_of_string "abc")) =
  [0xa9; 0x99; 0x3e; 0x36; 0x47; 0x06; 0x81; 0x6a; 0xba; 0x3e;
   0x25; 0x71; 0x78; 0x50; 0xc2; 0x6c; 0x9c; 0xd0; 0xd8; 0x9d].
Proof. vm_compute. reflexivity. Qed.

Example sha1_empty :
  SHA1.hex (SHA1.Sum []) =
  [0xda; 0x39; 0xa3; 0xee; 0x5e; 0x6b; 0x4b; 0x0d; 0x32; 0x55;
   0xbf; 0xef; 0x95; 0x60; 0x18; 0x90; 0xaf; 0xd8; 0x07; 0x09].
Proof. vm_compute. reflexivity. Qed.

Example sha1_two_blocks :
  SHA1.hex (SHA1.Sum (list_byte_of_string
    "abcdbcdecdefdefgefghfghighijhijkijkljklmklmnlmnomnopnopq")) =
  [0x84; 0x98; 0x3e; 0x44; 0x1c; 0x3b; 0xd2; 0x6e; 0xba; 0xae;
   0x4a; 0xa1; 0xf9; 0x51; 0x29; 0xe5; 0xe5; 0x46; 0x70; 0xf1].
Proof. vm_compute. reflexivity. Qed.

(** [sha1("a")] is 86f7e437faa5a7fc e15d1ddcb9eaeaea377667b8: byte 7 is
    0xfc and byte 19 is 0xb8, so the hash is [0xf8 | 0xb8 = 0xf8]. *)
Example key_hash_a : key_hash "a" = 248.
Proof. vm_compute. reflexivity. Qed.

Example key_hash_b : key_hash "b" = 218.
Proof. vm_compute. reflexivity. Qed.

(** ** Count and items on concrete call sequences *)

(** C1: after [New(1)], [Set("a", "x")], [Set("a", "y")] the only shard
    holds one item and its [count] is 2; the invariant that [count] is the
    number of items does not hold of the code. *)
Example count_is_not_the_number_of_items :
  (m ← run_fresh 1 [OpSet "a" "x"; OpSet "a" "y"]; Ok (summary m))
  = Ok [(1%nat, 2)].
Proof. vm_compute. reflexivity. Qed.

(** C2: [Set("a", "y")] on a map whose shard already holds "a" stores the
    new value and still adds one to the shard's [count]: the shard goes
    from one item and count 1 to one item and count 2. *)
Example Set_increments_count_on_overwrite :
  (m1 ← run_fresh 1 [OpSet "a" "x"];
   m2 ← Set_ m1 "a" "y";
   v1 ← Get m1 "a";
   v2 ← Get m2 "a";
   Ok (v1, summary m1, v2, summary m2))
  = Ok (("x", true), [(1%nat, 1)], ("y", true), [(1%nat, 2)]).
Proof. vm_compute. reflexivity. Qed.

(** C3: [Remove("a")] on a map whose shard holds "a" deletes the key and
    leaves the shard's [count] at 1: the shard goes from one item and
    count 1 to no item and count 1. *)
Example Remove_does_not_decrement_count :
  (m1 ← run_fresh 1 [OpSet "a" "x"];
   m2 ← Remove m1 "a";
   v1 ← Get m1 "a";
   v2 ← Get m2 "a";
   Ok (v1, summary m1, v2, summary m2))
  = Ok (("x", true), [(1%nat, 1)], ("", false), [(0%nat, 1)]).
Proof. vm_compute. reflexivity. Qed.

(** C4: the example scenario of the specification: ten shards,
    [Set("a", 1)], [Set("b", 2)], [Remove("a")].  One key is live, "b",
    and [Count()] returns 2. *)
Example Count_is_not_the_number_of_live_keys :
  (m ← run_fresh 10 [OpSet "a" 1; OpSet "b" 2; OpRemove "a"];
   Ok (Keys m, Count m))
  = Ok (["b"], 2) ∧
  elements (live [OpSet "a" 1; OpSet "b" 2; OpRemove "a"]) = ["b"].
Proof. split; vm_compute; reflexivity. Qed.

(** C5: [New(0)] does not fail; the first [Set] on its result does, with
    a division by zero. *)
Example New_zero_does_not_fail :
  New (K:=string) (V:=string) 0 = Ok [] ∧
  (m ← New 0; Set_ m "a" "x") = Panic IntegerDivideByZero.
Proof. split; reflexivity. Qed.

(** ** The theorems at concrete maps *)

Lemma New_non_positive_witness :
  0 ≤ 0 ∧
  ((0 < 0 ∧ New (K:=string) (V:=string) 0 = Panic MakesliceLenOutOfRange) ∨
   (0 = 0 ∧
    New (K:=string) (V:=string) 0 = Ok [] ∧
    Keys (K:=string) (V:=string) [] = [] ∧
    Count (K:=string) (V:=string) [] = 0 ∧
    Get (K:=string) (V:=string) [] "a" = Panic IntegerDivideByZero ∧
    Set_ (K:=string) (V:=string) [] "a" "x" = Panic IntegerDivideByZero ∧
    Remove (K:=string) (V:=string) [] "a" = Panic IntegerDivideByZero ∧
    Has (K:=string) (V:=string) [] "a" = Panic IntegerDivideByZero)).
Proof.
  split; [lia|].
  apply (New_non_positive (K:=string) (V:=string) 0 "a" "x"). lia.
Defined.

Lemma getShardIndex_in_range_witness :
  (1 ≤ length [mkShard (K:=string) (V:=string) ∅ 0])%nat ∧
  ∃ (i : Z) shard,
    getShardIndex [mkShard (K:=string) (V:=string) ∅ 0] "a" = Ok i ∧
    0 ≤ i < Z.of_nat (length [mkShard (K:=string) (V:=string) ∅ 0]) ∧
    [mkShard (K:=string) (V:=string) ∅ 0] !! Z.to_nat i = Some shard ∧
    index [mkShard (K:=string) (V:=string) ∅ 0] i = Ok shard ∧
    getShard [mkShard (K:=string) (V:=string) ∅ 0] "a" = Ok shard.
Proof.
  split; [simpl; lia|].
  apply (getShardIndex_in_range [mkShard (K:=string) (V:=string) ∅ 0] "a").
  simpl; lia.
Defined.

Lemma Set_then_Get_witness :
  (1 ≤ length [mkShard (K:=string) (V:=string) ∅ 0])%nat ∧
  ∃ m', Set_ [mkShard (K:=string) (V:=string) ∅ 0] "a" "x" = Ok m' ∧
        Get m' "a" = Ok ("x", true).
Proof.
  split; [simpl; lia|].
  apply (Set_then_Get [mkShard (K:=string) (V:=string) ∅ 0] "a" "x").
  simpl; lia.
Defined.

Lemma Keys_are_the_live_keys_witness :
  1 ≤ 10 ∧
  ∃ m, run_fresh 10 [OpSet "a" 1; OpSet "b" 2; OpRemove "a"] = Ok m ∧
    (∀ (i j : nat) si sj (key : string),
       m !! i = Some si → m !! j = Some sj →
       is_Some (items si !! key) → is_Some (items sj !! key) → i = j) ∧
    Keys_result m (Keys m) ∧
    ∀ keys, Keys_result m keys →
      NoDup keys ∧
      keys ≡ₚ elements (live [OpSet "a" 1; OpSet "b" 2; OpRemove "a"]).
Proof.
  split; [lia|].
  apply (Keys_are_the_live_keys 10 [OpSet "a" 1; OpSet "b" 2; OpRemove "a"]).
  lia.
Defined.

Lemma Count_is_number_of_Set_calls_witness :
  1 ≤ 10 ∧
  Z.of_nat (num_sets [OpSet "a" 1; OpSet "b" 2; OpRemove "a"]) ≤ max_int ∧
  ∃ m, run_fresh 10 [OpSet "a" 1; OpSet "b" 2; OpRemove "a"] = Ok m ∧
       Count m = Z.of_nat (num_sets [OpSet "a" 1; OpSet "b" 2; OpRemove "a"]).
Proof.
  assert (Z.of_nat (num_sets [OpSet "a" 1; OpSet "b" 2; OpRemove "a"]) ≤ max_int)
    as Hmax by (vm_compute; discriminate).
  split; [lia|]. split; [exact Hmax|].
  apply (Count_is_number_of_Set_calls 10 [OpSet "a" 1; OpSet "b" 2; OpRemove "a"]);
    [lia | exact Hmax].
Defined.

Lemma high_shards_stay_empty_witness :
  256 < 257 ∧
  0 ≤ key_hash "a" ≤ 255 ∧
  ∃ m, run_fresh 257 [OpSet "a" "x"] = Ok m ∧
    length m = Z.to_nat 257 ∧
    getShardIndex m "a" = Ok (key_hash "a") ∧
    ∀ (i : nat) shard,
      (256 ≤ i)%nat → m !! i = Some shard →
      items shard = ∅ ∧ count shard = 0.
Proof.
  split; [lia|].
  apply (high_shards_stay_empty 257 [OpSet "a" "x"] "a"). lia.
Defined.

(** * Further properties of the operations *)

Section further.
Context {K : Type} `{Countable K} `{!Formatter K} {V : Type} `{!ZeroValue V}.
Implicit Types (m : DMap K V) (key : K) (val : V) (shard : Shard K V).
Implicit Types (ops : list (op K V)) (o : op K V) (c : gmap K V).

(** ** Steps as shard updates *)

Lemma step_op_shard m o :
  (1 ≤ length m)%nat →
  ∃ shard,
    m !! route (length m) (op_key o) = Some shard ∧
    step m o = Ok (<[route (length m) (op_key o) := op_shard o shard]> m).
Proof.
  intros Hn.
  destruct (step_route m o Hn) as (shard & shard' & Hs & Heq & ->).
  exists shard. split; [done|]. rewrite Heq. by destruct o.
Qed.

Lemma Has_Get m key : Has m key = (Get m key ≫= λ r, Ok r.2).
Proof. unfold Has. by destruct (Get m key) as [[v ok]|p]. Qed.

Lemma Get_lookup_result m key shard :
  m !! route (length m) key = Some shard →
  Get m key = Ok (lookup_result (items shard !! key)).
Proof.
  intros Hs. rewrite (Get_route _ _ _ Hs). by destruct (items shard !! key).
Qed.

(** ** A fresh map *)


(** ** The sharded map against one plain map *)

Lemma stores_replicate (n : nat) :
  stores (K:=K) (V:=V) n ∅ (replicate n (mkShard ∅ 0)).
Proof.
  split; [by rewrite length_replicate|].
  intros i shard key [-> _]%lookup_replicate. cbn [items].
  rewrite !lookup_empty. by case_decide.
Qed.

Lemma stores_step (n : nat) c m o m' :
  stores n c m → (1 ≤ n)%nat → step m o = Ok m' →
  stores n (contents_step c o) m'.
Proof.
  intros [Hlen Hinv] Hn Hst.
  destruct (step_op_shard m o) as (shard & Hs & Heq); [lia|].
  rewrite Heq in Hst. apply Ok_inj in Hst as <-.
  split; [by rewrite length_insert|].
  rewrite Hlen in *.
  intros i s key Hi.
  destruct (decide (i = route n (op_key o))) as [->|Hne].
  - rewrite list_lookup_insert_eq in Hi by (by eapply lookup_lt_Some).
    injection Hi as <-. specialize (Hinv _ shard key Hs).
    destruct o as [k v|k]; cbn [contents_step op_shard op_key items] in *.
    + destruct (decide (key = k)) as [->|Hk].
      * rewrite !lookup_insert_eq. by rewrite decide_True.
      * by rewrite !lookup_insert_ne.
    + destruct (decide (key = k)) as [->|Hk].
      * rewrite !lookup_delete_eq. by case_decide.
      * by rewrite !lookup_delete_ne.
  - rewrite list_lookup_insert_ne in Hi by done.
    rewrite (Hinv i s key Hi).
    case_decide as Hr; [|done]. subst i.
    destruct o as [k v|k]; cbn [contents_step op_shard op_key items] in *.
    + rewrite lookup_insert_ne; [done|]. by intros ->.
    + rewrite lookup_delete_ne; [done|]. by intros ->.
Qed.

Lemma stores_run (n : nat) ops c m m' :
  stores n c m → (1 ≤ n)%nat → run ops m = Ok m' →
  stores n (foldl contents_step c ops) m'.
Proof.
  revert c m. induction ops as [|o ops IH]; intros c m Hr Hn; simpl.
  - by intros ->%Ok_inj.
  - destruct (step m o) as [m1|p] eqn:Hst; [|done].
    rewrite bind_Ok. apply IH; [|done]. by eapply stores_step.
Qed.

Lemma stores_Get (n : nat) c m key :
  stores n c m → (1 ≤ n)%nat → Get m key = Ok (lookup_result (c !! key)).
Proof.
  intros [Hlen Hinv] Hn.
  destruct (lookup_lt_is_Some_2 m (route (length m) key)) as [shard Hs].
  { apply route_lt. lia. }
  rewrite (Get_lookup_result _ _ _ Hs).
  rewrite (Hinv _ _ key Hs), Hlen. by rewrite decide_True.
Qed.

Lemma dom_contents_step c o : dom (contents_step c o) = live_step (dom c) o.
Proof.
  destruct o as [k v|k]; simpl.
  - apply dom_insert_L.
  - apply dom_delete_L.
Qed.

Lemma dom_contents_from ops c :
  dom (foldl contents_step c ops) = foldl live_step (dom c) ops.
Proof.
  revert c. induction ops as [|o ops IH]; intros c; simpl; [done|].
  by rewrite IH, dom_contents_step.
Qed.

Lemma dom_contents ops : dom (contents ops) = live ops.
Proof. unfold contents, live. by rewrite dom_contents_from, dom_empty_L. Qed.

(** ** Reachable states *)

Lemma run_fresh_inv (nShards : Z) ops m :
  run_fresh nShards ops = Ok m →
  0 ≤ nShards ∧
  run ops (replicate (Z.to_nat nShards) (mkShard (K:=K) (V:=V) ∅ 0)) = Ok m.
Proof.
  unfold run_fresh, New.
  destruct (Z.ltb_spec nShards 0); [done|]. by rewrite bind_Ok.
Qed.

Lemma run_fresh_total (nShards : Z) ops :
  1 ≤ nShards → ∃ m, run_fresh nShards ops = Ok m.
Proof.
  intros Hn. unfold run_fresh, New.
  destruct (Z.ltb_spec nShards 0); [lia|]. rewrite bind_Ok.
  apply run_total. rewrite length_replicate. lia.
Qed.

Lemma run_fresh_routed (nShards : Z) ops m :
  1 ≤ nShards → run_fresh nShards ops = Ok m →
  routed (Z.to_nat nShards) (live ops) m.
Proof.
  intros Hn [_ Hrun]%run_fresh_inv.
  eapply routed_run; [apply routed_replicate|lia|done].
Qed.

Lemma run_fresh_stores (nShards : Z) ops m :
  1 ≤ nShards → run_fresh nShards ops = Ok m →
  stores (Z.to_nat nShards) (contents ops) m.
Proof.
  intros Hn [_ Hrun]%run_fresh_inv.
  eapply stores_run; [apply stores_replicate|lia|done].
Qed.

(** X2: from a fresh map with at least one shard, after any [Set] and
    [Remove] calls, [Get] of every key returns what a lookup in one plain
    Go map would after the same calls: the last value set and [true], or
    the zero value and [false] when the key was never set or was removed
    since. *)
Theorem Get_as_one_map (nShards : Z) ops :
  1 ≤ nShards →
  ∃ m, run_fresh nShards ops = Ok m ∧
       ∀ key, Get m key = Ok (lookup_result (contents ops !! key)).
Proof.
  intros Hn. destruct (run_fresh_total nShards ops Hn) as [m Hrun].
  exists m. split; [done|]. intros key.
  apply (stores_Get (Z.to_nat nShards)); [|lia].
  by apply run_fresh_stores.
Qed.

(** X3: after the same calls, [Has] of a key is [true] exactly for the
    keys that are live (set and not removed since), and those are the keys
    [Keys()] lists. *)
Theorem Has_iff_live (nShards : Z) ops :
  1 ≤ nShards →
  ∃ m, run_fresh nShards ops = Ok m ∧
       ∀ key,
         Has m key = Ok (bool_decide (key ∈ live ops)) ∧
         (key ∈ Keys m ↔ Has m key = Ok true).
Proof.
  intros Hn. destruct (run_fresh_total nShards ops Hn) as [m Hrun].
  pose proof (run_fresh_stores _ _ _ Hn Hrun) as Hst.
  pose proof (run_fresh_routed _ _ _ Hn Hrun) as Hro.
  assert (Keys m ≡ₚ elements (live ops)) as HKeys
    by (apply (Keys_routed (Z.to_nat nShards)); [done|lia]).
  exists m. split; [done|]. intros key.
  assert (Has m key = Ok (bool_decide (key ∈ live ops))) as HHas.
  { rewrite Has_Get, (stores_Get _ _ _ key Hst), bind_Ok by lia. f_equal.
    rewrite <- dom_contents.
    destruct (contents ops !! key) as [v|] eqn:Hc; simpl.
    - symmetry. apply bool_decide_eq_true. apply elem_of_dom. by eexists.
    - symmetry. apply bool_decide_eq_false. by apply not_elem_of_dom. }
  split; [done|]. rewrite HHas, HKeys, elem_of_elements.
  split.
  - intros Hin. f_equal. by apply bool_decide_eq_true.
  - intros Heq%Ok_inj. by apply bool_decide_eq_true in Heq.
Qed.

(** ** Single calls on any map *)

(** X4: on a map with at least one shard, whatever it holds, after
    [Remove(K)] the key is gone: [Get(K)] returns the zero value and
    [false], and [Has(K)] returns [false]. *)
Theorem Remove_then_Get m key :
  (1 ≤ length m)%nat →
  ∃ m',
    Remove m key = Ok m' ∧
    Get m' key = Ok (zero_value, false) ∧
    Has m' key = Ok false.
Proof.
  intros Hn.
  destruct (getShard_route m key Hn) as (shard & Hs & _).
  pose proof (route_lt (length m) key Hn) as Hlt.
  eexists. split; [by apply Remove_route|].
  assert (∀ s1 : Shard K V,
    Get (<[route (length m) key := s1]> m) key
    = Ok (lookup_result (items s1 !! key))) as HG.
  { intros s1. apply Get_lookup_result.
    rewrite length_insert. by apply list_lookup_insert_eq. }
  split.
  - rewrite HG. simpl. by rewrite lookup_delete_eq.
  - rewrite Has_Get, HG. simpl. by rewrite lookup_delete_eq.
Qed.

(** X5: [Remove] of a key that [Has] reports missing changes nothing: the
    map after the call is the map before it. *)
Theorem Remove_missing_key m key :
  Has m key = Ok false → Remove m key = Ok m.
Proof.
  intros HHas.
  destruct m as [|s0 m0]; [done|].
  destruct (getShard_route (s0 :: m0) key) as (shard & Hs & _); [simpl; lia|].
  rewrite Has_Get, (Get_lookup_result _ _ _ Hs), bind_Ok in HHas.
  rewrite (Remove_route _ _ _ Hs). f_equal.
  apply list_insert_id. rewrite Hs. f_equal.
  destruct (items shard !! key) as [v|] eqn:Hk; [done|].
  rewrite delete_id by done. by destruct shard.
Qed.

(** X6: a [Set] or [Remove] of one key does not change what [Get] returns
    for any other key, in the same shard or in another. *)
Theorem Get_other_key m o m' key :
  step m o = Ok m' → op_key o ≠ key → Get m' key = Get m key.
Proof.
  intros Hst Hne.
  destruct m as [|s0 m0]; [by destruct o|].
  set (m := s0 :: m0) in *.
  assert (1 ≤ length m)%nat as Hn by (simpl; lia).
  destruct (step_op_shard m o Hn) as (shard & Hs & Heq).
  rewrite Heq in Hst. apply Ok_inj in Hst as <-.
  destruct (getShard_route m key Hn) as (shard' & Hs' & _).
  rewrite (Get_lookup_result _ _ _ Hs').
  destruct (decide (route (length m) key = route (length m) (op_key o)))
    as [Heqr|Hner].
  - rewrite Heqr in Hs'. rewrite Hs in Hs'. injection Hs' as <-.
    erewrite Get_lookup_result.
    2:{ rewrite length_insert, Heqr. apply list_lookup_insert_eq.
        by eapply lookup_lt_Some. }
    destruct o as [k v|k]; cbn [op_shard op_key items] in *.
    + by rewrite lookup_insert_ne.
    + by rewrite lookup_delete_ne.
  - erewrite Get_lookup_result; [done|].
    rewrite length_insert. by rewrite list_lookup_insert_ne.
Qed.

Lemma Count_sum_counts m : Count m = wrap_int (sum_counts m).
Proof. by apply Count_counted. Qed.

(** X7: on a map with at least one shard, [Set] raises [Count()] by one (in
    [int] arithmetic) whether the key was there or not, and [Remove] leaves
    [Count()] as it was whether the key was there or not. *)
Theorem Count_after_call m key val :
  (1 ≤ length m)%nat →
  (∃ m', Set_ m key val = Ok m' ∧ Count m' = wrap_int (Count m + 1)) ∧
  (∃ m', Remove m key = Ok m' ∧ Count m' = Count m).
Proof.
  intros Hn.
  assert (counted (sum_counts m) m) as Hc by done.
  split.
  - destruct (counted_step _ m (OpSet key val) Hc Hn) as (m' & Hst & Hc').
    exists m'. split; [done|].
    rewrite (Count_counted _ _ Hc'), Count_sum_counts. simpl.
    by rewrite wrap_int_add_l.
  - destruct (counted_step _ m (OpRemove key) Hc Hn) as (m' & Hst & Hc').
    exists m'. split; [done|].
    rewrite (Count_counted _ _ Hc'), Count_sum_counts. simpl.
    by rewrite Z.add_0_r.
Qed.

(** ** Sequences of calls on any map *)

(** X8: no call adds or removes a shard, and every key keeps its shard
    index: after any calls the routing function returns for every key what
    it returned before them. *)
Theorem routing_is_stable ops m m' :
  run ops m = Ok m' →
  length m' = length m ∧
  ∀ key, getShardIndex m' key = getShardIndex m key.
Proof.
  intros Hrun. pose proof (run_length _ _ _ Hrun) as Hlen.
  split; [done|]. intros key. unfold getShardIndex. by rewrite Hlen.
Qed.

(** X9: on a map with at least one shard no call ever panics: any sequence
    of [Set] and [Remove] runs through, and on the map it leaves, [Get] and
    [Has] of every key return. *)
Theorem calls_do_not_panic ops m :
  (1 ≤ length m)%nat →
  ∃ m', run ops m = Ok m' ∧
    ∀ key, ∃ v ok, Get m' key = Ok (v, ok) ∧ Has m' key = Ok ok.
Proof.
  intros Hn. destruct (run_total ops m Hn) as [m' Hrun].
  exists m'. split; [done|]. intros key.
  destruct (getShard_route m' key) as (shard & Hs & _).
  { by rewrite (run_length _ _ _ Hrun). }
  exists (lookup_result (items shard !! key)).1,
         (lookup_result (items shard !! key)).2.
  rewrite Has_Get, (Get_lookup_result _ _ _ Hs), bind_Ok.
  by destruct (lookup_result (items shard !! key)).
Qed.


(** ** How calls compose *)

Lemma op_shard_commute o1 o2 shard :
  op_key o1 ≠ op_key o2 →
  op_shard o2 (op_shard o1 shard) = op_shard o1 (op_shard o2 shard).
Proof.
  intros Hne. destruct o1 as [k1 v1|k1], o2 as [k2 v2|k2]; simpl in *.
  - by rewrite insert_insert_ne.
  - by rewrite delete_insert_ne.
  - by rewrite delete_insert_ne.
  - by rewrite delete_delete.
Qed.

Lemma step_step m o1 o2 shard1 shard2 :
  m !! route (length m) (op_key o1) = Some shard1 →
  m !! route (length m) (op_key o2) = Some shard2 →
  (step m o1 ≫= λ m1, step m1 o2) =
  Ok (if decide (route (length m) (op_key o1) = route (length m) (op_key o2))
      then <[route (length m) (op_key o1) := op_shard o2 (op_shard o1 shard1)]> m
      else <[route (length m) (op_key o2) := op_shard o2 shard2]>
             (<[route (length m) (op_key o1) := op_shard o1 shard1]> m)).
Proof.
  intros Hs1 Hs2.
  assert (1 ≤ length m)%nat as Hn by (apply lookup_lt_Some in Hs1; lia).
  destruct (step_op_shard m o1 Hn) as (s1 & Hs1' & Heq1).
  rewrite Hs1 in Hs1'. injection Hs1' as <-.
  rewrite Heq1, bind_Ok.
  set (m1 := <[route (length m) (op_key o1) := op_shard o1 shard1]> m).
  assert (length m1 = length m) as Hlen by apply length_insert.
  destruct (step_op_shard m1 o2) as (s2 & Hs2' & Heq2); [lia|].
  rewrite Heq2, Hlen. f_equal. rewrite Hlen in Hs2'. unfold m1 in *.
  case_decide as Hr.
  - rewrite <- Hr in *.
    rewrite list_lookup_insert_eq in Hs2' by (by eapply lookup_lt_Some).
    injection Hs2' as <-. by rewrite list_insert_insert_eq.
  - rewrite list_lookup_insert_ne in Hs2' by done.
    rewrite Hs2 in Hs2'. by injection Hs2' as <-.
Qed.

(** X10: two calls on different keys commute: in either order they panic
    alike or leave the same map, items and counts. *)
Theorem calls_on_different_keys_commute m o1 o2 :
  op_key o1 ≠ op_key o2 →
  (step m o1 ≫= λ m1, step m1 o2) = (step m o2 ≫= λ m2, step m2 o1).
Proof.
  intros Hne.
  destruct m as [|s0 m0]; [by destruct o1, o2|].
  set (m := s0 :: m0).
  assert (1 ≤ length m)%nat as Hn by (simpl; lia).
  destruct (getShard_route m (op_key o1) Hn) as (shard1 & Hs1 & _).
  destruct (getShard_route m (op_key o2) Hn) as (shard2 & Hs2 & _).
  rewrite (step_step m o1 o2 shard1 shard2), (step_step m o2 o1 shard2 shard1)
    by done.
  f_equal. case_decide as Hr.
  - rewrite decide_True by done. rewrite Hr in Hs1.
    rewrite Hs1 in Hs2. injection Hs2 as <-.
    rewrite Hr. f_equal. by apply op_shard_commute.
  - rewrite decide_False by done. by apply list_insert_insert_ne.
Qed.

(** X11: [Remove] is idempotent: a second [Remove] of the same key right
    after the first leaves the map the first one left. *)
Theorem Remove_twice m key :
  (Remove m key ≫= λ m1, Remove m1 key) = Remove m key.
Proof.
  destruct m as [|s0 m0]; [done|].
  set (m := s0 :: m0).
  destruct (getShard_route m key) as (shard & Hs & _); [simpl; lia|].
  pose proof (step_step m (OpRemove key) (OpRemove key) shard shard Hs Hs) as Hss.
  cbn [step op_key op_shard items count] in Hss.
  rewrite Hss, decide_True by done.
  rewrite (Remove_route _ _ _ Hs). do 2 f_equal.
  by rewrite delete_delete_eq.
Qed.

(** X17: a second [Set] of a key overwrites the first: the shards hold
    the items they would hold after the second [Set] alone, while
    [Count()] has been raised twice. *)
Theorem Set_overwrites m key val1 val2 :
  (1 ≤ length m)%nat →
  ∃ m1 m2 m2',
    Set_ m key val1 = Ok m1 ∧
    Set_ m1 key val2 = Ok m2 ∧
    Set_ m key val2 = Ok m2' ∧
    items <$> m2 = items <$> m2' ∧
    Count m2 = wrap_int (Count m2' + 1).
Proof.
  intros Hn.
  destruct (getShard_route m key Hn) as (shard & Hs & _).
  pose proof (step_step m (OpSet key val1) (OpSet key val2) shard shard Hs Hs)
    as Hss.
  cbn [op_key step] in Hss. rewrite decide_True in Hss by done.
  pose proof (Set_route m key val1 shard Hs) as H1.
  rewrite H1, bind_Ok in Hss.
  eexists _, _, _. split; [exact H1|]. split; [exact Hss|].
  split; [by apply Set_route|]. split.
  - rewrite !list_fmap_insert. cbn [items op_shard]. by rewrite insert_insert_eq.
  - rewrite !Count_sum_counts, !(sum_counts_insert _ _ _ _ Hs). simpl.
    rewrite (wrap_int_add_r _ (wrap_int (count shard + 1) + 1)).
    rewrite (wrap_int_add_l (sum_counts m - count shard
                             + wrap_int (count shard + 1)) 1).
    f_equal. lia.
Qed.

(** ** Keys and Count *)

Lemma length_shard_keys shard : length (shard_keys shard) = size (items shard).
Proof. unfold shard_keys. by rewrite length_fmap, length_map_to_list. Qed.

Lemma length_Keys m : length (Keys m) = total_items m.
Proof.
  unfold Keys. induction m as [|shard m IH]; [done|].
  change (length (shard_keys shard ++ mjoin (shard_keys <$> m))
          = (size (items shard) + total_items m)%nat).
  by rewrite length_app, IH, length_shard_keys.
Qed.

(** X12: on any map, every result [Keys()] can return has as many keys as
    the shards hold items, and lists the keys of the one result that
    follows the slice. *)
Theorem Keys_result_length m keys :
  Keys_result m keys →
  length keys = total_items m ∧ ∀ key, key ∈ keys ↔ key ∈ Keys m.
Proof.
  intros Hp%Keys_result_Permutation. split.
  - by rewrite Hp, length_Keys.
  - intros key. by rewrite Hp.
Qed.

Lemma size_live_from ops (L : gset K) :
  (size (foldl live_step L ops) ≤ size L + num_sets ops)%nat.
Proof.
  revert L. induction ops as [|o ops IH]; intros L.
  - unfold num_sets. simpl. lia.
  - rewrite num_sets_cons. simpl. etrans; [apply IH|].
    destruct o as [k v|k]; simpl.
    + rewrite size_union_alt, size_singleton.
      assert (L ∖ {[k]} ⊆ L) as Hsub by apply subseteq_difference_l, reflexivity.
      apply subseteq_size in Hsub. lia.
    + assert (L ∖ {[k]} ⊆ L) as Hsub by apply subseteq_difference_l, reflexivity.
      apply subseteq_size in Hsub. lia.
Qed.

(** X13: from a fresh map with at least one shard, [Keys()] never returns
    more keys than [Count()] reports (for a number of [Set] calls that fits
    [int]): [Count()] can only err upwards. *)
Theorem Keys_at_most_Count (nShards : Z) ops :
  1 ≤ nShards →
  Z.of_nat (num_sets ops) ≤ max_int →
  ∃ m, run_fresh nShards ops = Ok m ∧
       ∀ keys, Keys_result m keys → Z.of_nat (length keys) ≤ Count m.
Proof.
  intros Hn Hmax.
  destruct (Count_wraps_Set_calls nShards ops Hn) as (m & Hrun & Hcount).
  exists m. split; [done|]. intros keys Hk.
  rewrite Hcount, wrap_int_id
    by (unfold min_int, max_int, int_bits in *; lia).
  apply Keys_result_Permutation in Hk.
  rewrite Hk, (Keys_routed (Z.to_nat nShards) (live ops))
    by (by apply run_fresh_routed || lia).
  change (length (elements (live ops))) with (size (live ops)).
  pose proof (size_live_from ops ∅) as Hle.
  rewrite size_empty in Hle. unfold live. lia.
Qed.

(** ** Setting distinct keys *)

Lemma num_sets_set_all (keys : list K) val :
  num_sets (set_all keys val) = length keys.
Proof.
  induction keys as [|k keys IH]; [done|].
  change (set_all (k :: keys) val) with (OpSet k val :: set_all keys val).
  by rewrite num_sets_cons, IH.
Qed.

Lemma contents_set_all_from (keys : list K) val c key :
  foldl contents_step c (set_all keys val) !! key =
  if decide (key ∈ keys) then Some val else c !! key.
Proof.
  revert c. induction keys as [|k keys IH]; intros c.
  - destruct (decide (key ∈ [])) as [Hin|_]; [|done].
    by apply elem_of_nil in Hin.
  - change (foldl contents_step c (set_all (k :: keys) val))
      with (foldl contents_step (<[k := val]> c) (set_all keys val)).
    rewrite IH.
    destruct (decide (key ∈ keys)) as [Hin|Hnin],
             (decide (key ∈ k :: keys)) as [Hin'|Hnin']; try done.
    + exfalso. apply Hnin'. by right.
    + apply elem_of_cons in Hin' as [->|?]; [|done].
      by rewrite lookup_insert_eq.
    + rewrite lookup_insert_ne; [done|]. intros ->. apply Hnin'. by left.
Qed.

Lemma live_set_all_from (keys : list K) val (L : gset K) key :
  key ∈ foldl live_step L (set_all keys val) ↔ key ∈ keys ∨ key ∈ L.
Proof.
  revert L. induction keys as [|k keys IH]; intros L.
  - rewrite elem_of_nil. simpl. tauto.
  - change (foldl live_step L (set_all (k :: keys) val))
      with (foldl live_step ({[k]} ∪ L) (set_all keys val)).
    rewrite IH, elem_of_cons, elem_of_union, elem_of_singleton. tauto.
Qed.

(** X14: what the tests check.  From a fresh map with at least one shard,
    after one [Set] for each key of a list without duplicates (fewer than
    2^63 of them), [Count()] is the number of keys, every result of
    [Keys()] is a rearrangement of the list, [Get] of a key of the list
    returns the value set and [true], and [Has] of any other key returns
    [false]. *)
Theorem Set_of_distinct_keys (nShards : Z) (keys : list K) val :
  1 ≤ nShards →
  NoDup keys →
  Z.of_nat (length keys) ≤ max_int →
  ∃ m, run_fresh nShards (set_all keys val) = Ok m ∧
       Count m = Z.of_nat (length keys) ∧
       (∀ result, Keys_result m result → result ≡ₚ keys) ∧
       (∀ key, key ∈ keys →
          Get m key = Ok (val, true) ∧ Has m key = Ok true) ∧
       (∀ key, key ∉ keys →
          Get m key = Ok (zero_value, false) ∧ Has m key = Ok false).
Proof.
  intros Hn Hnd Hmax.
  destruct (Count_wraps_Set_calls nShards (set_all keys val) Hn)
    as (m & Hrun & Hcount).
  pose proof (run_fresh_stores _ _ _ Hn Hrun) as Hst.
  pose proof (run_fresh_routed _ _ _ Hn Hrun) as Hro.
  assert (∀ key, Get m key =
            Ok (lookup_result (if decide (key ∈ keys) then Some val else None)))
    as HGet.
  { intros key. rewrite (stores_Get _ _ _ key Hst) by lia.
    unfold contents. by rewrite contents_set_all_from, lookup_empty. }
  exists m. split; [done|]. split; [|split; [|split]].
  - rewrite Hcount, num_sets_set_all. apply wrap_int_id.
    unfold min_int, max_int, int_bits in *. lia.
  - intros result Hres%Keys_result_Permutation.
    rewrite Hres, (Keys_routed _ _ _ Hro) by lia.
    apply NoDup_Permutation; [apply NoDup_elements|done|].
    intros key. rewrite elem_of_elements. unfold live.
    rewrite live_set_all_from, elem_of_empty. tauto.
  - intros key Hin. rewrite Has_Get, HGet, decide_True by done. by split.
  - intros key Hnin. rewrite Has_Get, HGet, decide_False by done. by split.
Qed.

(** ** dmap.go, the revision without count *)

Lemma Uncounted_getShardIndex m key :
  Uncounted.getShardIndex (forget_count <$> m) key = getShardIndex m key.
Proof. unfold Uncounted.getShardIndex, getShardIndex. by rewrite length_fmap. Qed.

Lemma Uncounted_index m (i : nat) shard :
  m !! i = Some shard →
  Uncounted.index (forget_count <$> m) (Z.of_nat i) = Ok (forget_count shard).
Proof.
  intros Hi. unfold Uncounted.index.
  destruct (Z.ltb_spec (Z.of_nat i) 0); [lia|].
  by rewrite Nat2Z.id, list_lookup_fmap, Hi.
Qed.

Lemma Uncounted_update_shard m key f shard :
  m !! route (length m) key = Some shard →
  Uncounted.update_shard (forget_count <$> m) key f =
  Ok (<[route (length m) key := f (forget_count shard)]> (forget_count <$> m)).
Proof.
  intros Hs.
  assert (1 ≤ length m)%nat as Hn by (apply lookup_lt_Some in Hs; lia).
  unfold Uncounted.update_shard.
  rewrite Uncounted_getShardIndex, getShardIndex_route, bind_Ok by done.
  by rewrite (Uncounted_index _ _ _ Hs), bind_Ok, Nat2Z.id.
Qed.

Lemma Uncounted_step m o :
  Uncounted.step (forget_count <$> m) o =
  (step m o ≫= λ m', Ok (forget_count <$> m')).
Proof.
  destruct m as [|s0 m0]; [by destruct o|].
  set (m := s0 :: m0).
  destruct (step_op_shard m o) as (shard & Hs & Heq); [simpl; lia|].
  rewrite Heq, bind_Ok, list_fmap_insert.
  destruct o as [key val|key]; cbn [op_key op_shard Uncounted.step] in *.
  - unfold Uncounted.Set_. by rewrite (Uncounted_update_shard _ _ _ _ Hs).
  - unfold Uncounted.Remove. by rewrite (Uncounted_update_shard _ _ _ _ Hs).
Qed.

Lemma Uncounted_run ops m :
  Uncounted.run ops (forget_count <$> m) =
  (run ops m ≫= λ m', Ok (forget_count <$> m')).
Proof.
  revert m. induction ops as [|o ops IH]; intros m; [done|].
  simpl. rewrite Uncounted_step.
  destruct (step m o) as [m1|p]; [|done].
  by rewrite !bind_Ok, IH.
Qed.

Lemma Uncounted_run_fresh (nShards : Z) ops :
  Uncounted.run_fresh (K:=K) (V:=V) nShards ops =
  (run_fresh nShards ops ≫= λ m, Ok (forget_count <$> m)).
Proof.
  unfold Uncounted.run_fresh, run_fresh, Uncounted.New, New.
  destruct (nShards <? 0); [done|]. rewrite !bind_Ok.
  by rewrite <- Uncounted_run, fmap_replicate.
Qed.

(** X15: the two revisions agree on the items.  After the same calls from
    a fresh map, [dmap.go] panics exactly when the code with [count] does,
    and otherwise its shards hold the items of that code's shards; on
    such maps [Get] returns the same in both. *)
Theorem revisions_agree (nShards : Z) ops :
  Uncounted.run_fresh (K:=K) (V:=V) nShards ops =
    (run_fresh nShards ops ≫= λ m, Ok (forget_count <$> m)) ∧
  ∀ m key, Uncounted.Get (forget_count <$> m) key = Get m key.
Proof.
  split; [apply Uncounted_run_fresh|].
  - intros m key. destruct m as [|s0 m0]; [done|].
    set (m := s0 :: m0).
    destruct (getShard_route m key) as (shard & Hs & _); [simpl; lia|].
    rewrite (Get_route _ _ _ Hs).
    unfold Uncounted.Get, Uncounted.getShard.
    rewrite Uncounted_getShardIndex, getShardIndex_route, bind_Ok
      by (simpl; lia).
    by rewrite (Uncounted_index _ _ _ Hs), bind_Ok.
Qed.

Lemma join_lookup_cons (parts : list (list K)) (i : nat) key rest :
  parts !! i = Some (key :: rest) →
  mjoin parts ≡ₚ key :: mjoin (<[i := rest]> parts).
Proof.
  revert i. induction parts as [|part parts IH]; intros [|i] Hi; simplify_eq/=.
  - done.
  - rewrite (IH i Hi). by rewrite Permutation_middle.
Qed.

Lemma interleaving_Permutation (parts : list (list K)) keys :
  Uncounted.interleaving parts keys → keys ≡ₚ mjoin parts.
Proof.
  induction 1 as [parts Hnil|parts i key rest keys Hi _ IH].
  - by rewrite join_nil_2.
  - by rewrite (join_lookup_cons _ _ _ _ Hi), IH.
Qed.

Lemma interleaving_skip (parts : list (list K)) keys :
  Uncounted.interleaving parts keys → Uncounted.interleaving ([] :: parts) keys.
Proof.
  induction 1 as [parts Hnil|parts i key rest keys Hi _ IH].
  - apply Uncounted.interleaving_done. by constructor.
  - by apply (Uncounted.interleaving_next _ (S i) key rest).
Qed.

Lemma interleaving_join (parts : list (list K)) :
  Uncounted.interleaving parts (mjoin parts).
Proof.
  induction parts as [|part parts IH].
  - apply Uncounted.interleaving_done. constructor.
  - induction part as [|key part IHpart].
    + by apply interleaving_skip.
    + by apply (Uncounted.interleaving_next _ 0%nat key part).
Qed.

Lemma Uncounted_shard_keys shard :
  Uncounted.shard_keys (forget_count shard) = shard_keys shard.
Proof. done. Qed.

Lemma Uncounted_Keys_result m keys :
  Uncounted.Keys_result (forget_count <$> m) keys → keys ≡ₚ Keys m.
Proof.
  intros (parts & Hparts & Hint).
  rewrite (interleaving_Permutation _ _ Hint). unfold Keys. clear Hint.
  apply Forall2_fmap_l in Hparts.
  induction Hparts as [|shard part m parts Hp _ IH]; [done|].
  change (part ++ mjoin parts ≡ₚ shard_keys shard ++ mjoin (shard_keys <$> m)).
  rewrite IH. apply Permutation_app_tail. exact Hp.
Qed.

(** X16: in [dmap.go], where the goroutines of [Keys] interleave their
    appends key by key, [Keys()] still has a result, and every result it
    can return after any calls from a fresh map with at least one shard
    lists each live key once and nothing else. *)
Theorem Uncounted_Keys_are_the_live_keys (nShards : Z) ops :
  1 ≤ nShards →
  ∃ m0 : Uncounted.DMap K V,
    Uncounted.run_fresh nShards ops = Ok m0 ∧
    Uncounted.Keys_result m0 (Uncounted.Keys m0) ∧
    ∀ keys, Uncounted.Keys_result m0 keys →
      NoDup keys ∧ keys ≡ₚ elements (live ops).
Proof.
  intros Hn. destruct (run_fresh_total nShards ops Hn) as [m Hrun].
  exists (forget_count <$> m).
  split; [by rewrite Uncounted_run_fresh, Hrun|].
  split.
  - exists (Uncounted.shard_keys <$> (forget_count <$> m)).
    split; [|apply interleaving_join].
    generalize (forget_count <$> m) as m0.
    induction m0 as [|shard0 m0 IH]; simpl; by constructor.
  - intros keys Hk%Uncounted_Keys_result.
    assert (keys ≡ₚ elements (live ops)) as Hp.
    { rewrite Hk. apply (Keys_routed (Z.to_nat nShards)); [|lia].
      by apply run_fresh_routed. }
    split; [|done]. rewrite Hp. apply NoDup_elements.
Qed.

End further.

(** ** The further properties at concrete maps *)


Lemma Get_as_one_map_witness :
  1 ≤ 10 ∧
  ∃ m, run_fresh 10 scenario = Ok m ∧
       ∀ key, Get m key = Ok (lookup_result (contents scenario !! key)).
Proof. split; [lia|]. apply (Get_as_one_map 10 scenario). lia. Defined.

Lemma Has_iff_live_witness :
  1 ≤ 10 ∧
  ∃ m, run_fresh 10 scenario = Ok m ∧
       ∀ key,
         Has m key = Ok (bool_decide (key ∈ live scenario)) ∧
         (key ∈ Keys m ↔ Has m key = Ok true).
Proof. split; [lia|]. apply (Has_iff_live 10 scenario). lia. Defined.

Lemma Remove_then_Get_witness :
  (1 ≤ length one_shard_a)%nat ∧
  ∃ m',
    Remove one_shard_a "a" = Ok m' ∧
    Get m' "a" = Ok (zero_value, false) ∧
    Has m' "a" = Ok false.
Proof.
  split; [simpl; lia|]. apply (Remove_then_Get one_shard_a "a"). simpl; lia.
Defined.

Lemma Remove_missing_key_witness :
  Has one_shard_a "b" = Ok false ∧
  Remove one_shard_a "b" = Ok one_shard_a.
Proof.
  assert (Has one_shard_a "b" = Ok false) as HHas by (vm_compute; reflexivity).
  split; [exact HHas|]. apply (Remove_missing_key one_shard_a "b" HHas).
Defined.

Lemma Get_other_key_witness :
  step one_shard (OpSet "a" "x") = Ok one_shard_a ∧
  op_key (OpSet (V:=string) "a" "x") ≠ "b" ∧
  Get one_shard_a "b" = Get one_shard "b".
Proof.
  assert (step one_shard (OpSet "a" "x") = Ok one_shard_a) as Hst
    by (vm_compute; reflexivity).
  assert (op_key (OpSet (V:=string) "a" "x") ≠ "b") as Hne by discriminate.
  split; [exact Hst|]. split; [exact Hne|].
  apply (Get_other_key one_shard (OpSet "a" "x") one_shard_a "b" Hst Hne).
Defined.

Lemma Count_after_call_witness :
  (1 ≤ length one_shard_a)%nat ∧
  (∃ m', Set_ one_shard_a "a" "y" = Ok m' ∧
         Count m' = wrap_int (Count one_shard_a + 1)) ∧
  (∃ m', Remove one_shard_a "a" = Ok m' ∧ Count m' = Count one_shard_a).
Proof.
  split; [simpl; lia|]. apply (Count_after_call one_shard_a "a" "y"). simpl; lia.
Defined.

Lemma routing_is_stable_witness :
  run [OpSet "a" "x"] one_shard = Ok one_shard_a ∧
  length one_shard_a = length one_shard ∧
  ∀ key : string,
    getShardIndex one_shard_a key = getShardIndex one_shard key.
Proof.
  assert (run [OpSet "a" "x"] one_shard = Ok one_shard_a) as Hrun
    by (vm_compute; reflexivity).
  split; [exact Hrun|].
  apply (routing_is_stable [OpSet "a" "x"] one_shard one_shard_a Hrun).
Defined.

Lemma calls_do_not_panic_witness :
  (1 ≤ length one_shard)%nat ∧
  ∃ m', run [OpSet "a" "x"; OpRemove "b"] one_shard = Ok m' ∧
    ∀ key, ∃ v ok, Get m' key = Ok (v, ok) ∧ Has m' key = Ok ok.
Proof.
  split; [simpl; lia|].
  apply (calls_do_not_panic [OpSet "a" "x"; OpRemove "b"] one_shard). simpl; lia.
Defined.

Lemma calls_on_different_keys_commute_witness :
  op_key (OpSet "a" "x") ≠ op_key (OpRemove (V:=string) "b") ∧
  (step one_shard (OpSet "a" "x") ≫= λ m1, step m1 (OpRemove "b")) =
  (step one_shard (OpRemove "b") ≫= λ m2, step m2 (OpSet "a" "x")).
Proof.
  assert (op_key (OpSet "a" "x") ≠ op_key (OpRemove (V:=string) "b")) as Hne
    by discriminate.
  split; [exact Hne|].
  apply (calls_on_different_keys_commute one_shard _ _ Hne).
Defined.

Lemma Keys_result_length_witness :
  Keys_result one_shard_a (Keys one_shard_a) ∧
  length (Keys one_shard_a) = total_items one_shard_a ∧
  ∀ key, key ∈ Keys one_shard_a ↔ key ∈ Keys one_shard_a.
Proof.
  pose proof (Keys_result_Keys one_shard_a) as Hk.
  split; [exact Hk|].
  apply (Keys_result_length one_shard_a (Keys one_shard_a) Hk).
Defined.

Lemma Keys_at_most_Count_witness :
  1 ≤ 10 ∧
  Z.of_nat (num_sets scenario) ≤ max_int ∧
  ∃ m, run_fresh 10 scenario = Ok m ∧
       ∀ keys, Keys_result m keys → Z.of_nat (length keys) ≤ Count m.
Proof.
  assert (Z.of_nat (num_sets scenario) ≤ max_int) as Hmax
    by (vm_compute; discriminate).
  split; [lia|]. split; [exact Hmax|].
  apply (Keys_at_most_Count 10 scenario); [lia | exact Hmax].
Defined.

Lemma Set_of_distinct_keys_witness :
  1 ≤ 10 ∧
  NoDup ["key_0"; "otherkey_1"; "oldkey_2"] ∧
  Z.of_nat (length ["key_0"; "otherkey_1"; "oldkey_2"]) ≤ max_int ∧
  ∃ m, run_fresh 10 (set_all ["key_0"; "otherkey_1"; "oldkey_2"] "some val")
       = Ok m ∧
       Count m = Z.of_nat (length ["key_0"; "otherkey_1"; "oldkey_2"]) ∧
       (∀ result, Keys_result m result →
          result ≡ₚ ["key_0"; "otherkey_1"; "oldkey_2"]) ∧
       (∀ key, key ∈ ["key_0"; "otherkey_1"; "oldkey_2"] →
          Get m key = Ok ("some val", true) ∧ Has m key = Ok true) ∧
       (∀ key, key ∉ ["key_0"; "otherkey_1"; "oldkey_2"] →
          Get m key = Ok (zero_value, false) ∧ Has m key = Ok false).
Proof.
  assert (NoDup ["key_0"; "otherkey_1"; "oldkey_2"]) as Hnd
    by (repeat (apply NoDup_cons_2;
          [intros Hin;
           repeat (apply elem_of_cons in Hin as [Hin|Hin]; [discriminate|]);
           by apply elem_of_nil in Hin|]);
        apply NoDup_nil_2).
  assert (Z.of_nat (length ["key_0"; "otherkey_1"; "oldkey_2"]) ≤ max_int)
    as Hmax by (vm_compute; discriminate).
  split; [lia|]. split; [exact Hnd|]. split; [exact Hmax|].
  apply (Set_of_distinct_keys 10 ["key_0"; "otherkey_1"; "oldkey_2"] "some val");
    [lia | exact Hnd | exact Hmax].
Defined.

Lemma Uncounted_Keys_are_the_live_keys_witness :
  1 ≤ 10 ∧
  ∃ m0 : Uncounted.DMap string Z,
    Uncounted.run_fresh 10 scenario = Ok m0 ∧
    Uncounted.Keys_result m0 (Uncounted.Keys m0) ∧
    ∀ keys, Uncounted.Keys_result m0 keys →
      NoDup keys ∧ keys ≡ₚ elements (live scenario).
Proof.
  split; [lia|]. apply (Uncounted_Keys_are_the_live_keys 10 scenario). lia.
Defined.

Lemma Set_overwrites_witness :
  (1 ≤ length one_shard)%nat ∧
  ∃ m1 m2 m2',
    Set_ one_shard "a" "x" = Ok m1 ∧
    Set_ m1 "a" "y" = Ok m2 ∧
    Set_ one_shard "a" "y" = Ok m2' ∧
    items <$> m2 = items <$> m2' ∧
    Count m2 = wrap_int (Count m2' + 1).
Proof.
  split; [simpl; lia|]. apply (Set_overwrites one_shard "a" "x" "y"). simpl; lia.
Defined.
